(** * Strawberry: the tag editor dialog and the Tidal cover provider

    A shallow embedding of [src/dialogs/edittagdialog.cpp] (the batch tag
    editor: per-field diffing over a selection, reset, album-wide cover
    propagation and the asynchronous save with its pending counter) and of
    [src/covermanager/tidalcoverprovider.cpp] (start, cancel and completion of
    a cover search).

    Widgets, fonts and layout are left out.  The data of the batch, the
    loading flag, the pending counter and the replies in flight are kept as
    state, and the calls on collaborators (tag reader, collection backend,
    cover loader, network) and the signals sent as events of a trace.
    Replies arrive through the event loop, after the function that issued
    the request has returned. *)

From Stdlib Require Import ZArith List Lia.
From stdpp Require Import base option list strings.

(** ** Qt values *)

Definition QString := string.
Definition QUrl := string.
Definition QByteArray := string.

Definition isEmpty (s : QString) : bool := bool_decide (s = "").

(** The alternatives of [QVariant] the dialog meets: the default-constructed
    (invalid) variant, and the three types its editors and [Data::value]
    produce. *)
Inductive QVariant : Type :=
  | QVInvalid
  | QVString (s : QString)
  | QVInt (n : Z)
  | QVBool (b : bool).

#[global] Instance QVariant_eq_dec : EqDecision QVariant.
Proof. solve_decision. Defined.

Definition isValid (v : QVariant) : bool :=
  match v with QVInvalid => false | _ => true end.

(** ** Song *)

(** Modelled from the spec: class [Song] (core/song.h) is not among the
    sources.  The record has the members of the spec's TrackRecord that the
    two translation units touch: identity (validity flag, collection id, url),
    the fourteen editable tags and the manual art url.  Setters replace their
    member and nothing else. *)
Record Song : Type := mkSong {
  is_valid : bool;
  id : Z;
  url : QUrl;
  title : QString;
  artist : QString;
  album : QString;
  albumartist : QString;
  composer : QString;
  performer : QString;
  grouping : QString;
  genre : QString;
  comment : QString;
  lyrics : QString;
  track : Z;
  disc : Z;
  year : Z;
  compilation : bool;
  art_manual : QUrl
}.

#[global] Instance Song_eq_dec : EqDecision Song.
Proof. solve_decision. Defined.

Definition set_title (v : QString) (s : Song) : Song :=
  mkSong (is_valid s) (id s) (url s) v (artist s) (album s) (albumartist s)
    (composer s) (performer s) (grouping s) (genre s) (comment s) (lyrics s)
    (track s) (disc s) (year s) (compilation s) (art_manual s).
Definition set_artist (v : QString) (s : Song) : Song :=
  mkSong (is_valid s) (id s) (url s) (title s) v (album s) (albumartist s)
    (composer s) (performer s) (grouping s) (genre s) (comment s) (lyrics s)
    (track s) (disc s) (year s) (compilation s) (art_manual s).
Definition set_album (v : QString) (s : Song) : Song :=
  mkSong (is_valid s) (id s) (url s) (title s) (artist s) v (albumartist s)
    (composer s) (performer s) (grouping s) (genre s) (comment s) (lyrics s)
    (track s) (disc s) (year s) (compilation s) (art_manual s).
Definition set_albumartist (v : QString) (s : Song) : Song :=
  mkSong (is_valid s) (id s) (url s) (title s) (artist s) (album s) v
    (composer s) (performer s) (grouping s) (genre s) (comment s) (lyrics s)
    (track s) (disc s) (year s) (compilation s) (art_manual s).
Definition set_composer (v : QString) (s : Song) : Song :=
  mkSong (is_valid s) (id s) (url s) (title s) (artist s) (album s)
    (albumartist s) v (performer s) (grouping s) (genre s) (comment s)
    (lyrics s) (track s) (disc s) (year s) (compilation s) (art_manual s).
Definition set_performer (v : QString) (s : Song) : Song :=
  mkSong (is_valid s) (id s) (url s) (title s) (artist s) (album s)
    (albumartist s) (composer s) v (grouping s) (genre s) (comment s)
    (lyrics s) (track s) (disc s) (year s) (compilation s) (art_manual s).
Definition set_grouping (v : QString) (s : Song) : Song :=
  mkSong (is_valid s) (id s) (url s) (title s) (artist s) (album s)
    (albumartist s) (composer s) (performer s) v (genre s) (comment s)
    (lyrics s) (track s) (disc s) (year s) (compilation s) (art_manual s).
Definition set_genre (v : QString) (s : Song) : Song :=
  mkSong (is_valid s) (id s) (url s) (title s) (artist s) (album s)
    (albumartist s) (composer s) (performer s) (grouping s) v (comment s)
    (lyrics s) (track s) (disc s) (year s) (compilation s) (art_manual s).
Definition set_comment (v : QString) (s : Song) : Song :=
  mkSong (is_valid s) (id s) (url s) (title s) (artist s) (album s)
    (albumartist s) (composer s) (performer s) (grouping s) (genre s) v
    (lyrics s) (track s) (disc s) (year s) (compilation s) (art_manual s).
Definition set_lyrics (v : QString) (s : Song) : Song :=
  mkSong (is_valid s) (id s) (url s) (title s) (artist s) (album s)
    (albumartist s) (composer s) (performer s) (grouping s) (genre s)
    (comment s) v (track s) (disc s) (year s) (compilation s) (art_manual s).
Definition set_track (v : Z) (s : Song) : Song :=
  mkSong (is_valid s) (id s) (url s) (title s) (artist s) (album s)
    (albumartist s) (composer s) (performer s) (grouping s) (genre s)
    (comment s) (lyrics s) v (disc s) (year s) (compilation s) (art_manual s).
Definition set_disc (v : Z) (s : Song) : Song :=
  mkSong (is_valid s) (id s) (url s) (title s) (artist s) (album s)
    (albumartist s) (composer s) (performer s) (grouping s) (genre s)
    (comment s) (lyrics s) (track s) v (year s) (compilation s) (art_manual s).
Definition set_year (v : Z) (s : Song) : Song :=
  mkSong (is_valid s) (id s) (url s) (title s) (artist s) (album s)
    (albumartist s) (composer s) (performer s) (grouping s) (genre s)
    (comment s) (lyrics s) (track s) (disc s) v (compilation s) (art_manual s).
Definition set_compilation (v : bool) (s : Song) : Song :=
  mkSong (is_valid s) (id s) (url s) (title s) (artist s) (album s)
    (albumartist s) (composer s) (performer s) (grouping s) (genre s)
    (comment s) (lyrics s) (track s) (disc s) (year s) v (art_manual s).
Definition set_art_manual (v : QUrl) (s : Song) : Song :=
  mkSong (is_valid s) (id s) (url s) (title s) (artist s) (album s)
    (albumartist s) (composer s) (performer s) (grouping s) (genre s)
    (comment s) (lyrics s) (track s) (disc s) (year s) (compilation s) v.

(** ** The tag editor *)

Module EditTagDialog.

(** [EditTagDialog::Data] (declared in edittagdialog.h): the song as last
    loaded and the working copy. *)
Record Data : Type := mkData {
  original_ : Song;
  current_ : Song
}.

#[global] Instance Data_eq_dec : EqDecision Data.
Proof. solve_decision. Defined.

(** The key namespace of the editable fields, by the type [Data::value]
    returns for them. *)
Definition text_fields : list QString :=
  ["title"; "artist"; "album"; "albumartist"; "composer"; "performer";
   "grouping"; "genre"; "comment"; "lyrics"].
Definition number_fields : list QString := ["track"; "disc"; "year"].
Definition flag_fields : list QString := ["compilation"].
Definition field_keys : list QString :=
  text_fields ++ number_fields ++ flag_fields.

(** [EditTagDialog::Data::value].  The warning logged for an unknown id is
    not part of the result. *)
Definition value (song : Song) (id : QString) : QVariant :=
  if String.eqb id "title" then QVString (title song)
  else if String.eqb id "artist" then QVString (artist song)
  else if String.eqb id "album" then QVString (album song)
  else if String.eqb id "albumartist" then QVString (albumartist song)
  else if String.eqb id "composer" then QVString (composer song)
  else if String.eqb id "performer" then QVString (performer song)
  else if String.eqb id "grouping" then QVString (grouping song)
  else if String.eqb id "genre" then QVString (genre song)
  else if String.eqb id "comment" then QVString (comment song)
  else if String.eqb id "lyrics" then QVString (lyrics song)
  else if String.eqb id "track" then QVInt (track song)
  else if String.eqb id "disc" then QVInt (disc song)
  else if String.eqb id "year" then QVInt (year song)
  else if String.eqb id "compilation" then QVBool (compilation song)
  else QVInvalid.

(** Modelled from the spec: the inline accessors of [Data] in
    edittagdialog.h, which is not among the sources; each reads the named
    field of one of the two songs through [value]. *)
Definition original_value (d : Data) (id : QString) : QVariant :=
  value (original_ d) id.
Definition current_value (d : Data) (id : QString) : QVariant :=
  value (current_ d) id.

(** Every selected row is a row of [data_]. *)
Definition rows_in_range (sel : list nat) (data_ : list Data) : Prop :=
  Forall (λ row, row < length data_) sel.

(** A variant of the type [value] returns for the field [id]: what the
    editor bound to that field hands to [UpdateFieldValue]. *)
Definition value_fits (id : QString) (v : QVariant) : bool :=
  match v with
  | QVInvalid => false
  | QVString _ => bool_decide (id ∈ text_fields)
  | QVInt _ => bool_decide (id ∈ number_fields)
  | QVBool _ => bool_decide (id ∈ flag_fields)
  end.

Section Conversions.

(** [QVariant::toString], [toInt] and [toBool] belong to Qt.  They are
    parameters; what Qt documents for a variant that already holds the
    requested type is assumed where a proof needs it. *)
Variable toString : QVariant → QString.
Variable toInt : QVariant → Z.
Variable toBool : QVariant → bool.

(** [EditTagDialog::Data::set_value], on the song it writes. *)
Definition set_song_value (id : QString) (v : QVariant) (cur : Song) : Song :=
  if String.eqb id "title" then set_title (toString v) cur
  else if String.eqb id "artist" then set_artist (toString v) cur
  else if String.eqb id "album" then set_album (toString v) cur
  else if String.eqb id "albumartist" then set_albumartist (toString v) cur
  else if String.eqb id "composer" then set_composer (toString v) cur
  else if String.eqb id "performer" then set_performer (toString v) cur
  else if String.eqb id "grouping" then set_grouping (toString v) cur
  else if String.eqb id "genre" then set_genre (toString v) cur
  else if String.eqb id "comment" then set_comment (toString v) cur
  else if String.eqb id "lyrics" then set_lyrics (toString v) cur
  else if String.eqb id "track" then set_track (toInt v) cur
  else if String.eqb id "disc" then set_disc (toInt v) cur
  else if String.eqb id "year" then set_year (toInt v) cur
  else if String.eqb id "compilation" then set_compilation (toBool v) cur
  else cur.

Definition set_value (id : QString) (v : QVariant) (d : Data) : Data :=
  mkData (original_ d) (set_song_value id v (current_ d)).

(** *** Queries over a selection

    A selection is the list of rows of [QModelIndexList]; [data_] is indexed
    by row.  [sel.first()] on an empty selection and [data_[row]] past the end
    have no defined result in the source: the functions return [None]
    there. *)

Fixpoint DoesValueVary_loop (v : QVariant) (rest : list nat) (id : QString)
    (data_ : list Data) : option bool :=
  match rest with
  | [] => Some false
  | row :: rest' =>
      d ← data_ !! row;
      if bool_decide (v ≠ current_value d id) then Some true
      else DoesValueVary_loop v rest' id data_
  end.

(** [EditTagDialog::DoesValueVary] *)
Definition DoesValueVary (sel : list nat) (id : QString) (data_ : list Data)
    : option bool :=
  match sel with
  | [] => None
  | row0 :: rest =>
      d0 ← data_ !! row0;
      DoesValueVary_loop (current_value d0 id) rest id data_
  end.

(** [EditTagDialog::IsValueModified] *)
Fixpoint IsValueModified (sel : list nat) (id : QString) (data_ : list Data)
    : option bool :=
  match sel with
  | [] => Some false
  | row :: sel' =>
      d ← data_ !! row;
      if bool_decide (original_value d id ≠ current_value d id) then Some true
      else IsValueModified sel' id data_
  end.

(** What [InitFieldValue] puts into the editor of a field: the hint for a
    value that differs across the selection, else the first selected song's
    current value; and the boldness [UpdateModifiedField] gives the label. *)
Record FieldDisplay : Type := mkFieldDisplay {
  shown : option QVariant;
  bold : bool
}.

(** [EditTagDialog::UpdateModifiedField] *)
Definition UpdateModifiedField (id : QString) (sel : list nat)
    (data_ : list Data) : option bool :=
  IsValueModified sel id data_.

(** [EditTagDialog::InitFieldValue] *)
Definition InitFieldValue (id : QString) (sel : list nat) (data_ : list Data)
    : option FieldDisplay :=
  varies ← DoesValueVary sel id data_;
  editor ← (if varies : bool then Some None
            else row0 ← head sel; d0 ← data_ !! row0;
                 Some (Some (current_value d0 id)));
  modified ← UpdateModifiedField id sel data_;
  Some (mkFieldDisplay editor modified).

(** The spec's [FieldValue]: the first selected song's current value, with
    the flag [InitFieldValue] branches on. *)
Definition FieldValue (sel : list nat) (id : QString) (data_ : list Data)
    : option (QVariant * bool) :=
  varies ← DoesValueVary sel id data_;
  row0 ← head sel;
  d0 ← data_ !! row0;
  Some (current_value d0 id, varies).

(** The loop of [UpdateFieldValue]: [data_[i.row()].set_value(id, value)]
    for every selected row. *)
Fixpoint set_value_each (sel : list nat) (id : QString) (v : QVariant)
    (data_ : list Data) : option (list Data) :=
  match sel with
  | [] => Some data_
  | row :: sel' =>
      d ← data_ !! row;
      set_value_each sel' id v (<[row := set_value id v d]> data_)
  end.

(** [EditTagDialog::UpdateFieldValue].  [v] is what the field's editor
    returns, the invalid variant when the widget is not an editor.  The
    result is the new [data_] and the boldness of the label. *)
Definition UpdateFieldValue (id : QString) (sel : list nat) (v : QVariant)
    (data_ : list Data) : option (list Data * option bool) :=
  if negb (isValid v) then Some (data_, None)
  else
    data' ← set_value_each sel id v data_;
    modified ← UpdateModifiedField id sel data';
    Some (data', Some modified).

(** The loop of [ResetFieldValue]. *)
Fixpoint reset_each (sel : list nat) (id : QString) (data_ : list Data)
    : option (list Data) :=
  match sel with
  | [] => Some data_
  | row :: sel' =>
      d ← data_ !! row;
      reset_each sel' id (<[row := set_value id (original_value d id) d]> data_)
  end.

(** [EditTagDialog::ResetFieldValue] *)
Definition ResetFieldValue (id : QString) (sel : list nat) (data_ : list Data)
    : option (list Data * FieldDisplay) :=
  data' ← reset_each sel id data_;
  display ← InitFieldValue id sel data';
  Some (data', display).

(** [EditTagDialog::ResetField], for the field whose editor sent the signal:
    nothing happens on an empty selection. *)
Definition ResetField (id : QString) (sel : list nat) (data_ : list Data)
    : option (list Data * option FieldDisplay) :=
  if bool_decide (sel = []) then Some (data_, None)
  else r ← ResetFieldValue id sel data_; Some (r.1, Some r.2).

(** A run of edits of one field, each with its own selection and value. *)
Fixpoint UpdateFieldValues (id : QString) (edits : list (list nat * QVariant))
    (data_ : list Data) : option (list Data) :=
  match edits with
  | [] => Some data_
  | (sel, v) :: edits' =>
      r ← UpdateFieldValue id sel v data_;
      UpdateFieldValues id edits' r.1
  end.

End Conversions.

(** *** The dialog as a state

    The members the save path and the cover path read and write; the
    closures connected to the [Finished] signal of the tag reader replies
    still outstanding (file name and song, as [SaveData] captures them), in
    the order of issue; and the calls made on collaborators, oldest first. *)

Inductive Event : Type :=
  | SaveFile (filename : QString) (song : Song)
      (* TagReaderClient::SaveFile(filename, song) *)
  | Error (message : QString)
      (* emit Error(message) *)
  | AddOrUpdateSongs (songs : list Song)
      (* collection_backend()->AddOrUpdateSongs(songs) *)
  | LoadImageAsync (song : Song)
      (* album_cover_loader()->LoadImageAsync(cover_options_, song) *)
  | DialogAccept.
      (* QDialog::accept() *)

#[global] Instance Event_eq_dec : EqDecision Event.
Proof. solve_decision. Defined.

Record Dialog : Type := mkDialog {
  data_ : list Data;
  loading_ : bool;
  pending_ : Z;
  outstanding : list (QString * Song);
  trace : list Event
}.

(** The members as the constructor leaves them, once a batch is loaded. *)
Definition loaded (data : list Data) : Dialog := mkDialog data false 0 [] [].

Definition emit (e : Event) (s : Dialog) : Dialog :=
  mkDialog (data_ s) (loading_ s) (pending_ s) (outstanding s) (trace s ++ [e]).

Definition with_data (data : list Data) (s : Dialog) : Dialog :=
  mkDialog data (loading_ s) (pending_ s) (outstanding s) (trace s).

(** [EditTagDialog::SetLoading]: the new state and the returned flag. *)
Definition SetLoading (message : QString) (s : Dialog) : Dialog * bool :=
  let loading := negb (isEmpty message) in
  if Bool.eqb loading (loading_ s) then (s, false)
  else (mkDialog (data_ s) loading (pending_ s) (outstanding s) (trace s), true).

(** [EditTagDialog::AcceptFinished] *)
Definition AcceptFinished (s : Dialog) : Dialog :=
  let '(s', changed) := SetLoading "" s in
  if changed then emit DialogAccept s' else s.

(** The message of a failed write: [tr] is taken as the identity and [arg]
    puts the file name in place of the marker. *)
Definition save_error_message (filename : QString) : QString :=
  "An error occurred writing metadata to '" +:+ filename +:+ "'".

(** Neither loading nor saving, and no write outstanding. *)
Definition idle (s : Dialog) : Prop :=
  loading_ s = false ∧ pending_ s = 0%Z ∧ outstanding s = [].

(** Saving with at least one write outstanding: the counter is the number of
    outstanding replies. *)
Definition saving (s : Dialog) : Prop :=
  loading_ s = true ∧ pending_ s = Z.of_nat (length (outstanding s)) ∧
  outstanding s ≠ [].

(** The write requests of a trace, and how often it closes the dialog. *)
Definition saves (tr : list Event) : list (QString * Song) :=
  omap (λ e, match e with
             | SaveFile filename song => Some (filename, song)
             | _ => None
             end) tr.
Definition accepts (tr : list Event) : nat :=
  length (filter (λ e, e = DialogAccept) tr).

Definition save_events (ws : list (QString * Song)) : list Event :=
  (λ w, SaveFile w.1 w.2) <$> ws.

(** Every error message of the trace comes after the dialog was closed. *)
Definition errors_after_completion (tr : list Event) : Prop :=
  ∀ i message, tr !! i = Some (Error message) →
    ∃ j, j < i ∧ tr !! j = Some DialogAccept.

Section Collaborators.

(** Members of [Song] and [QUrl] whose bodies are not among the sources. *)
Variable IsMetadataEqual : Song → Song → bool.
Variable is_collection_song : Song → bool.
Variable effective_albumartist : Song → QString.
Variable toLocalFile : QUrl → QString.

(** The loop of [SaveData].  [pending_] is an [int]; it starts from zero and
    is incremented at most once per element of a [QList], so it stays in
    range and is kept in [Z]. *)
Fixpoint SaveData_loop (tag_data : list Data) (s : Dialog) : Dialog :=
  match tag_data with
  | [] => s
  | ref :: tag_data' =>
      if IsMetadataEqual (current_ ref) (original_ ref)
      then SaveData_loop tag_data' s
      else
        let filename := toLocalFile (url (current_ ref)) in
        SaveData_loop tag_data'
          (mkDialog (data_ s) (loading_ s) (pending_ s + 1)
             (outstanding s ++ [(filename, current_ ref)])
             (trace s ++ [SaveFile filename (current_ ref)]))
  end.

(** [EditTagDialog::SaveData] *)
Definition SaveData (tag_data : list Data) (s : Dialog) : Dialog :=
  let s' := SaveData_loop tag_data s in
  if (pending_ s' <=? 0)%Z then AcceptFinished s' else s'.

(** [EditTagDialog::accept] *)
Definition accept (s : Dialog) : Dialog :=
  let '(s', changed) := SetLoading ("Saving tracks" +:+ "...") s in
  if changed then SaveData (data_ s') s' else s.

(** [EditTagDialog::SongSaveComplete]; [success] is
    [reply->message().save_file_response().success()]. *)
Definition SongSaveComplete (success : bool) (filename : QString)
    (song : Song) (s : Dialog) : Dialog :=
  let s1 := mkDialog (data_ s) (loading_ s) (pending_ s - 1) (outstanding s)
              (trace s) in
  let s2 :=
    if negb success then emit (Error (save_error_message filename)) s1
    else if is_collection_song song then emit (AddOrUpdateSongs [song]) s1
    else s1 in
  if (pending_ s2 <=? 0)%Z then AcceptFinished s2 else s2.

(** The [Finished] signal of the [n]-th outstanding reply: its closure runs
    once and the reply is deleted.  There is no such signal when fewer
    replies are outstanding. *)
Definition Finished (n : nat) (success : bool) (s : Dialog) : option Dialog :=
  '(filename, song) ← outstanding s !! n;
  Some (SongSaveComplete success filename song
          (mkDialog (data_ s) (loading_ s) (pending_ s)
             (delete n (outstanding s)) (trace s))).

(** A run of completions, in arrival order. *)
Fixpoint deliver (cs : list (nat * bool)) (s : Dialog) : option Dialog :=
  match cs with
  | [] => Some s
  | (n, success) :: cs' => s' ← Finished n success s; deliver cs' s'
  end.

(** The writes behind a run of completions, with their outcomes. *)
Fixpoint arrivals (cs : list (nat * bool)) (out : list (QString * Song))
    : option (list (QString * Song * bool)) :=
  match cs with
  | [] => Some []
  | (n, success) :: cs' =>
      w ← out !! n;
      rest ← arrivals cs' (delete n out);
      Some ((w, success) :: rest)
  end.

(** The writes [SaveData] issues for a batch: one for each element whose
    current song is not metadata-equal to its original, in order. *)
Definition written (tag_data : list Data) : list (QString * Song) :=
  (λ ref, (toLocalFile (url (current_ ref)), current_ ref)) <$>
  filter (λ ref, IsMetadataEqual (current_ ref) (original_ ref) = false)
         tag_data.

(** What [SongSaveComplete] sends out for one arrival, before it looks at
    the counter. *)
Definition arrival_events (a : QString * Song * bool) : list Event :=
  if negb a.2 then [Error (save_error_message a.1.1)]
  else if is_collection_song a.1.2 then [AddOrUpdateSongs [a.1.2]]
  else [].

(** [EditTagDialog::UpdateSummaryTab], as far as it reaches a collaborator:
    the request for the cover of the song.  The rest fills labels. *)
Definition UpdateSummaryTab (song : Song) (s : Dialog) : Dialog :=
  emit (LoadImageAsync song) s.

(** The two songs are of one album for [UpdateCoverOf]. *)
Definition same_album (a b : Song) : Prop :=
  effective_albumartist a = effective_albumartist b ∧ album a = album b.

#[global] Instance same_album_dec a b : Decision (same_album a b).
Proof. unfold same_album. apply _. Defined.

(** The body of the loop of [UpdateCoverOf] at row [i], on [data_[i]]. *)
Definition UpdateCoverOf_row (selected : Song) (first : nat)
    (cover_url : QUrl) (i : nat) (d : Data) : Data :=
  let other_song :=
    if bool_decide (i ≠ first)
       && bool_decide (effective_albumartist selected
                       = effective_albumartist (original_ d))
       && bool_decide (album selected = album (original_ d))
    then set_art_manual cover_url (original_ d)
    else original_ d in
  mkData other_song (set_art_manual (art_manual other_song) (current_ d)).

(** The loop of [UpdateCoverOf], over the rows still to visit. *)
Fixpoint UpdateCoverOf_loop (rows : list nat) (selected : Song)
    (sel : list nat) (cover_url : QUrl) (data : list Data)
    : option (list Data) :=
  match rows with
  | [] => Some data
  | i :: rows' =>
      first ← head sel;
      d ← data !! i;
      UpdateCoverOf_loop rows' selected sel cover_url
        (<[i := UpdateCoverOf_row selected first cover_url i d]> data)
  end.

(** [EditTagDialog::UpdateCoverOf].  [selected] is passed by reference and at
    every call site refers to [data_[sel.first().row()].original_], a song the
    loop does not write (lemma [UpdateCoverOf_loop_first] below), so its
    value at entry stands for it throughout. *)
Definition UpdateCoverOf (selected : Song) (sel : list nat) (cover_url : QUrl)
    (s : Dialog) : option Dialog :=
  if negb (is_valid selected) || (id selected =? -1)%Z then Some s
  else
    let s' := UpdateSummaryTab selected s in
    data' ← UpdateCoverOf_loop (seq 0 (length (data_ s'))) selected sel
               cover_url (data_ s');
    Some (with_data data' s').

(** The cover actions of the dialog ([LoadCoverFromFile], [LoadCoverFromURL],
    [SearchForCover], [UnsetCover], the drop on the art label) from the
    moment the cover controller has returned [cover_url]: the song of
    [GetFirstSelected] goes to [UpdateCoverOf].  [s] is the dialog as the
    controller left it. *)
Definition SetCoverArt (sel : list nat) (cover_url : QUrl) (s : Dialog)
    : option Dialog :=
  first ← head sel;
  d ← data_ s !! first;
  UpdateCoverOf (original_ d) sel cover_url s.

(** What the spec expects of [SetCoverArt] on the first selected entry:
    every other entry of the same album has the url as the manual art of
    its original, an entry of another album keeps the manual art of its
    original, and every entry's current manual art is that of its
    original. *)
Definition cover_propagated (sel : list nat) (cover_url : QUrl)
    (s s' : Dialog) : Prop :=
  ∃ first e,
    head sel = Some first ∧ data_ s !! first = Some e ∧
    length (data_ s') = length (data_ s) ∧
    ∀ i d, data_ s !! i = Some d →
      ∃ d', data_ s' !! i = Some d' ∧
        (i ≠ first → same_album (original_ e) (original_ d) →
         art_manual (original_ d') = cover_url) ∧
        (¬ same_album (original_ e) (original_ d) →
         art_manual (original_ d') = art_manual (original_ d)) ∧
        art_manual (current_ d') = art_manual (original_ d').

End Collaborators.

(** The rows outside [sel] are as they were, and on every row every key but
    [id] reads as it did, from both records. *)
Definition only_field_changed (id : QString) (sel : list nat)
    (data data' : list Data) : Prop :=
  length data' = length data ∧
  (∀ row, row ∉ sel → data' !! row = data !! row) ∧
  ∀ row d d' id', data !! row = Some d → data' !! row = Some d' →
    id' ≠ id →
    current_value d' id' = current_value d id' ∧
    original_value d' id' = original_value d id'.

(** *** Loading a batch *)

(** Modelled from the spec: the constructor [Data(const Song &song)] of
    edittagdialog.h, which is not among the sources: an entry is created with
    the loaded song as its original and as its working copy. *)
Definition Data_of (song : Song) : Data := mkData song song.

Section Loading.

(** Members of [Song], [QUrl] and the tag reader whose bodies are not among
    the sources.  [ReadFileBlocking filename copy] is the song the call
    leaves in [copy]; [MergeUserSetData copy song] is [copy] after
    [copy.MergeUserSetData(song)]. *)
Variable IsEditable : Song → bool.
Variable ReadFileBlocking : QString → Song → Song.
Variable MergeUserSetData : Song → Song → Song.
Variable toLocalFile : QUrl → QString.

(** [EditTagDialog::LoadData] *)
Fixpoint LoadData (songs : list Song) : list Data :=
  match songs with
  | [] => []
  | song :: songs' =>
      if IsEditable song then
        let copy := ReadFileBlocking (toLocalFile (url song)) song in
        if is_valid copy
        then Data_of (MergeUserSetData copy song) :: LoadData songs'
        else LoadData songs'
      else LoadData songs'
  end.

(** [EditTagDialog::SetSongs]: the new state and, when the load was started,
    what the background call of [LoadData] will return.  The playlist items
    and the list widget are left out. *)
Definition SetSongs (s0 : list Song) (s : Dialog)
    : Dialog * option (list Data) :=
  let '(s', changed) := SetLoading ("Loading tracks" +:+ "...") s in
  if changed then (with_data [] s', Some (LoadData s0)) else (s, None).

(** [EditTagDialog::SetSongsFinished]; [future] is [future.result()].  The
    rows of the list widget, all selected afterwards, are left out. *)
Definition SetSongsFinished (future : list Data) (s : Dialog) : Dialog :=
  let '(s', changed) := SetLoading "" s in
  if changed then with_data future s' else s.

(** A load from the call of [SetSongs] to the end of [SetSongsFinished]. *)
Definition load (s0 : list Song) (s : Dialog) : Dialog :=
  let '(s', future) := SetSongs s0 s in
  match future with
  | Some result => SetSongsFinished result s'
  | None => s'
  end.

End Loading.

(** *** Moving through the list *)

(** [EditTagDialog::NextSong] and [EditTagDialog::PreviousSong], as the row
    they make current: [count] is [song_list->count()] and [currentRow] is
    [song_list->currentRow()], -1 when no row is current.  [%] truncates
    towards zero. *)
Definition NextSong (count currentRow : Z) : Z :=
  if (count =? 0)%Z then currentRow
  else Z.rem (currentRow + 1) count.

Definition PreviousSong (count currentRow : Z) : Z :=
  if (count =? 0)%Z then currentRow
  else Z.rem (currentRow - 1 + count) count.

(** *** Tags fetched from MusicBrainz *)

(** [EditTagDialog::UpdateUI], for the ids of [fields_] in order: what each
    editor shows.  [ignore_edits_] is set for the time of the loop, so that
    the editors' change signals do not come back as edits. *)
Definition UpdateUI (fields_ : list QString) (sel : list nat)
    (data_ : list Data) : option (list FieldDisplay) :=
  mapM (λ id, InitFieldValue id sel data_) fields_.

Section FetchTag.

Variable toLocalFile : QUrl → QString.

(** [EditTagDialog::FetchTagSongChosen], in a build with GStreamer and
    Chromaprint (without them the body is empty).  [currentRow] and [sel]
    are the current row and the selection of the list widget.  The result
    is the new [data_] and, when the song is the one displayed, what the
    editors show. *)
Definition FetchTagSongChosen (fields_ : list QString) (currentRow : Z)
    (sel : list nat) (original_song new_metadata : Song) (data_ : list Data)
    : option (list Data * option (list FieldDisplay)) :=
  let filename := toLocalFile (url original_song) in
  match list_find (λ d, toLocalFile (url (original_ d)) = filename) data_ with
  | None => Some (data_, None)
  | Some (i, d) =>
      let cur :=
        set_year (year new_metadata)
          (set_track (track new_metadata)
             (set_album (album new_metadata)
                (set_artist (artist new_metadata)
                   (set_title (title new_metadata) (current_ d))))) in
      let data' := <[i := mkData (original_ d) cur]> data_ in
      if bool_decide (currentRow = Z.of_nat i) then
        ui ← UpdateUI fields_ sel data';
        Some (data', Some ui)
      else Some (data', None)
  end.

End FetchTag.

(** The keys [FetchTagSongChosen] writes. *)
Definition fetched_fields : list QString :=
  ["title"; "artist"; "album"; "track"; "year"].

End EditTagDialog.

(** ** The Tidal cover provider *)

Module TidalCoverProvider.

(** *** JSON values as Qt presents them *)

#[local] Unset Elimination Schemes.
Inductive QJsonValue : Type :=
  | JUndefined
  | JNull
  | JBool (b : bool)
  | JNumber (n : option Z)   (* [None]: a number that is not an [int] *)
  | JString (s : QString)
  | JArray (items : list QJsonValue)
  | JObject (members : list (QString * QJsonValue)).
#[local] Set Elimination Schemes.

Definition QJsonObject := list (QString * QJsonValue).

Definition contains (obj : QJsonObject) (key : QString) : bool :=
  bool_decide (is_Some (list_find (λ m, m.1 = key) obj)).

(** [QJsonObject::operator[]]: the undefined value for an absent key. *)
Definition at_key (obj : QJsonObject) (key : QString) : QJsonValue :=
  match list_find (λ m, m.1 = key) obj with
  | Some (_, m) => m.2
  | None => JUndefined
  end.

Definition isObject (v : QJsonValue) : bool :=
  match v with JObject _ => true | _ => false end.
Definition isArray (v : QJsonValue) : bool :=
  match v with JArray _ => true | _ => false end.
Definition toObject (v : QJsonValue) : QJsonObject :=
  match v with JObject members => members | _ => [] end.
Definition toArray (v : QJsonValue) : list QJsonValue :=
  match v with JArray items => items | _ => [] end.
Definition toInt (v : QJsonValue) : Z :=
  match v with JNumber (Some n) => n | _ => 0%Z end.
Definition toString (v : QJsonValue) : QString :=
  match v with JString s => s | _ => "" end.

(** *** Collaborators *)

(** Modelled from the spec: [TidalService] (tidal/tidalservice.h) is not
    among the sources; these are the three getters the provider calls. *)
Record TidalService : Type := mkService {
  authenticated : bool;
  country_code : QString;
  access_token : QString
}.

(** Library routines and members of absent classes, by the names the source
    calls them with. *)
Class Externals : Type := {
  kApiUrl : QString;                       (* TidalService::kApiUrl *)
  kResourcesUrl : QString;                 (* TidalService::kResourcesUrl *)
  Logout : TidalService → TidalService;    (* TidalService::Logout *)
  number : Z → QString;                    (* QString::number *)
  arg : QString → QString → QString;       (* QString::arg(const QString &) *)
  arg_int : QString → Z → QString;         (* QString::arg(int) *)
  arg3 : QString → QString → QString → QString → QString;
                                           (* QString::arg(a1, a2, a3) *)
  replace : QString → QString → QString → QString;
                                           (* QString::replace(before, after) *)
  toPercentEncoding : QString → QString;   (* QUrl::toPercentEncoding *)
  toUtf8 : QString → QByteArray;           (* QString::toUtf8 *)
  fromJson : QByteArray → option QJsonValue;
                          (* QJsonDocument::fromJson; [None]: a parse error *)
  ExtractJsonObj : QByteArray → QJsonObject;
                                       (* JsonCoverProvider::ExtractJsonObj *)
  AlbumRemoveDiscMisc : QString → QString  (* Song::AlbumRemoveDiscMisc *)
}.

Definition kLimit : Z := 10.

Inductive RedirectPolicy : Type := NoLessSafeRedirectPolicy.

Record QNetworkRequest : Type := mkRequest {
  request_url : QString;
  request_query : list (QString * QString);
  redirect_policy : RedirectPolicy;
  content_type : QString;
  authorization : option QByteArray
}.

(** What a finished [QNetworkReply] answers to the calls of
    [GetReplyData]. *)
Record ReplyContent : Type := mkReply {
  error : Z;               (* QNetworkReply::NoError is 0 *)
  errorString : QString;
  http_status : Z;
  readAll : QByteArray
}.

Record CoverProviderSearchResult : Type := mkResult {
  result_artist : QString;
  result_album : QString;
  result_number : Z;
  image_url : QUrl;
  image_size : Z * Z
}.

Inductive Signal : Type :=
  | SearchFinished (id : Z) (results : list CoverProviderSearchResult)
  | LogError (message : QString).

(** A reply is named by its position among the requests handed to the
    network; [connected_] holds the closures [StartSearch] connects to
    [QNetworkReply::finished]. *)
Record Provider : Type := mkProvider {
  service_ : option TidalService;
  replies_ : list nat;
  connected_ : list (nat * Z);
  sent : list QNetworkRequest;
  signals : list Signal
}.

Definition raise (sg : Signal) (p : Provider) : Provider :=
  mkProvider (service_ p) (replies_ p) (connected_ p) (sent p)
    (signals p ++ [sg]).

(** [TidalCoverProvider::Error]: the line written to the log. *)
Definition Error (message : QString) (p : Provider) : Provider :=
  raise (LogError message) p.

(** The results delivered so far, by search id. *)
Definition searches (sgs : list Signal)
    : list (Z * list CoverProviderSearchResult) :=
  omap (λ sg, match sg with
              | SearchFinished id results => Some (id, results)
              | LogError _ => None
              end) sgs.

Definition delivered (id : Z) (p : Provider) : Prop :=
  ∃ results, (id, results) ∈ searches (signals p).

(** The provider up to its service and its log: the replies in flight, their
    closures, the requests sent and the results delivered agree. *)
Definition same_searches (p q : Provider) : Prop :=
  replies_ q = replies_ p ∧ connected_ q = connected_ p ∧
  sent q = sent p ∧ searches (signals q) = searches (signals p).

Section Provider.

Context {qt : Externals}.

(** The resource and the query string [StartSearch] builds from its
    arguments. *)
Definition search_query (artist album title : QString) : QString * QString :=
  if isEmpty album && negb (isEmpty title) then
    ("search/tracks",
     (if negb (isEmpty artist) then artist +:+ " " else artist) +:+ title)
  else
    ("search/albums",
     if negb (isEmpty album)
     then (if negb (isEmpty artist) then artist +:+ " " else artist) +:+ album
     else artist).

(** [TidalCoverProvider::StartSearch] *)
Definition StartSearch (artist album title : QString) (id : Z) (p : Provider)
    : Provider * bool :=
  match service_ p with
  | None => (p, false)
  | Some service =>
      if negb (authenticated service) then (p, false)
      else if isEmpty artist && isEmpty album && isEmpty title then (p, false)
      else
        let '(resource, query) := search_query artist album title in
        let params :=
          [("query", query); ("limit", number kLimit);
           ("countryCode", country_code service)] in
        let url_query :=
          map (λ param : QString * QString,
                 (toPercentEncoding param.1, toPercentEncoding param.2))
              params in
        let req :=
          mkRequest (kApiUrl +:+ "/" +:+ resource) url_query
            NoLessSafeRedirectPolicy "application/x-www-form-urlencoded"
            (if negb (isEmpty (access_token service))
             then Some ("Bearer " +:+ toUtf8 (access_token service))
             else None) in
        let reply := length (sent p) in
        (mkProvider (service_ p) (replies_ p ++ [reply])
           (connected_ p ++ [(reply, id)]) (sent p ++ [req]) (signals p),
         true)
  end.

(** [TidalCoverProvider::CancelSearch] *)
Definition CancelSearch (id : Z) (p : Provider) : Provider := p.

Definition with_service (f : TidalService → TidalService) (p : Provider)
    : Provider :=
  mkProvider (f <$> service_ p) (replies_ p) (connected_ p) (sent p)
    (signals p).

(** [TidalCoverProvider::GetReplyData] *)
Definition GetReplyData (reply : ReplyContent) (p : Provider)
    : Provider * QByteArray :=
  if (error reply =? 0)%Z && (http_status reply =? 200)%Z then
    (p, readAll reply)
  else if negb (error reply =? 0)%Z && (error reply <? 200)%Z then
    (Error (arg_int (arg "%1 (%2)" (errorString reply)) (error reply)) p, "")
  else
    let data := readAll reply in
    let json_obj :=
      match fromJson data with
      | Some (JObject members) => members
      | _ => []
      end in
    let found :=
      negb (bool_decide (json_obj = []))
      && contains json_obj "status" && contains json_obj "userMessage" in
    let status := if found then toInt (at_key json_obj "status") else 0%Z in
    let sub_status :=
      if found then toInt (at_key json_obj "subStatus") else 0%Z in
    let error0 :=
      if found
      then arg_int
             (arg_int (arg "%1 (%2) (%3)"
                         (toString (at_key json_obj "userMessage")))
                status)
             sub_status
      else "" in
    let error1 :=
      if isEmpty error0 then
        if negb (error reply =? 0)%Z
        then arg_int (arg "%1 (%2)" (errorString reply)) (error reply)
        else arg_int "Received HTTP code %1" (http_status reply)
      else error0 in
    let p1 :=
      if (status =? 401)%Z && (sub_status =? 6001)%Z
      then with_service Logout p else p in
    (Error error1 p1, "").

Definition cover_sizes : list (QString * (Z * Z)) :=
  [("1280x1280", (1280, 1280)%Z); ("750x750", (750, 750)%Z);
   ("640x640", (640, 640)%Z)].

(** One element of the items array: the log lines it causes and, unless it
    is skipped, the results it contributes under number [i + 1]. *)
Definition item_results (value_item : QJsonValue) (i : Z)
    : list QString + list CoverProviderSearchResult :=
  if negb (isObject value_item) then
    inl ["Invalid Json reply, items array item is not a object."]
  else
    let obj_item := toObject value_item in
    if negb (contains obj_item "artist") then
      inl ["Invalid Json reply, items array item is missing artist."]
    else
      let value_artist := at_key obj_item "artist" in
      if negb (isObject value_artist) then
        inl ["Invalid Json reply, items array item artist is not a object."]
      else
        let obj_artist := toObject value_artist in
        if negb (contains obj_artist "name") then
          inl ["Invalid Json reply, items array item artist is missing name."]
        else
          let artist := toString (at_key obj_artist "name") in
          if contains obj_item "album"
             && negb (isObject (at_key obj_item "album")) then
            inl ["Invalid Json reply, items array item album is not a object."]
          else
            let obj_album :=
              if contains obj_item "album"
              then toObject (at_key obj_item "album") else obj_item in
            if negb (contains obj_album "title")
               || negb (contains obj_album "cover") then
              inl ["Invalid Json reply, items array item album is missing title or cover."]
            else
              let album := toString (at_key obj_album "title") in
              let cover :=
                replace (toString (at_key obj_album "cover")) "-" "/" in
              inr (map (λ cover_size : QString * (Z * Z),
                          mkResult artist (AlbumRemoveDiscMisc album)
                            (i + 1)
                            (arg3 "%1/images/%2/%3.jpg" kResourcesUrl cover
                               cover_size.1)
                            cover_size.2)
                       cover_sizes).

(** The loop of [HandleSearchReply] over the items array. *)
Fixpoint collect_items (array_items : list QJsonValue) (i : Z)
    (results : list CoverProviderSearchResult) (p : Provider)
    : Provider * list CoverProviderSearchResult :=
  match array_items with
  | [] => (p, results)
  | value_item :: array_items' =>
      match item_results value_item i with
      | inl messages =>
          collect_items array_items' i results
            (foldl (λ q message, Error message q) p messages)
      | inr found =>
          collect_items array_items' (i + 1) (results ++ found) p
      end
  end.

(** [TidalCoverProvider::HandleSearchReply].  [reply] names the reply and
    [content] is what it holds when it finishes. *)
Definition HandleSearchReply (reply : nat) (content : ReplyContent) (id : Z)
    (p : Provider) : Provider :=
  if negb (bool_decide (reply ∈ replies_ p)) then p
  else
    let p0 :=
      mkProvider (service_ p) (filter (λ r, r ≠ reply) (replies_ p))
        (filter (λ c, c.1 ≠ reply) (connected_ p)) (sent p) (signals p) in
    let '(p1, data) := GetReplyData content p0 in
    if isEmpty data then raise (SearchFinished id []) p1
    else
      let json_obj := ExtractJsonObj data in
      if bool_decide (json_obj = []) then raise (SearchFinished id []) p1
      else if negb (contains json_obj "items") then
        raise (SearchFinished id [])
          (Error "Json object is missing items." p1)
      else
        let value_items := at_key json_obj "items" in
        if negb (isArray value_items) then raise (SearchFinished id []) p1
        else
          let array_items := toArray value_items in
          if bool_decide (array_items = []) then
            raise (SearchFinished id []) p1
          else
            let '(p2, results) := collect_items array_items 0 [] p1 in
            raise (SearchFinished id results) p2.

(** The [finished] signal of a reply: every closure connected to it runs. *)
Definition finished (reply : nat) (content : ReplyContent) (p : Provider)
    : Provider :=
  foldl (λ q (c : nat * Z), HandleSearchReply reply content c.2 q) p
        (filter (λ c, c.1 = reply) (connected_ p)).

(** What the spec expects of [CancelSearch]: once it was called for a
    search, no reply that finishes delivers a result for that search. *)
Definition cancel_silences (id : Z) (p : Provider) : Prop :=
  ∀ reply content, ¬ delivered id (finished reply content (CancelSearch id p)).

End Provider.

(** The loop of the destructor: the first reply in flight is taken out,
    disconnected from the provider and aborted, until none is left.  The
    second component lists the replies aborted, in order. *)
Fixpoint abort_replies (replies : list nat) (connected : list (nat * Z))
    (aborted : list nat) : list (nat * Z) * list nat :=
  match replies with
  | [] => (connected, aborted)
  | reply :: replies' =>
      abort_replies replies' (filter (λ c, c.1 ≠ reply) connected)
        (aborted ++ [reply])
  end.

(** [TidalCoverProvider::~TidalCoverProvider] *)
Definition Destructor (p : Provider) : Provider * list nat :=
  let '(connected, aborted) := abort_replies (replies_ p) (connected_ p) [] in
  (mkProvider (service_ p) [] connected (sent p) (signals p), aborted).

(** The bookkeeping of the replies in flight: each was handed out by the
    network, none is listed twice, and the closures connected are those of
    the replies in flight, in the same order. *)
Definition consistent (p : Provider) : Prop :=
  NoDup (replies_ p) ∧ (connected_ p).*1 = replies_ p ∧
  Forall (λ reply, reply < length (sent p)) (replies_ p).

(** The lines of the log. *)
Definition logged (sgs : list Signal) : list QString :=
  omap (λ sg, match sg with
              | LogError message => Some message
              | SearchFinished _ _ => None
              end) sgs.

(** The numbers 1 to [k], each three times: one for each cover size. *)
Definition numbers_by_size (k : nat) : list Z :=
  flat_map (λ n, [Z.of_nat n; Z.of_nat n; Z.of_nat n]) (seq 1 k).

End TidalCoverProvider.

(** ** Sample data *)

Module Sample.
Import EditTagDialog.

(** Stand-ins for the Qt conversions: the held value, a default otherwise. *)
Definition held_string (v : QVariant) : QString :=
  match v with QVString s => s | _ => "" end.
Definition held_int (v : QVariant) : Z :=
  match v with QVInt n => n | _ => 0%Z end.
Definition held_bool (v : QVariant) : bool :=
  match v with QVBool b => b | _ => false end.

(** Stand-ins for the members of [Song] and [QUrl]. *)
Definition same_tags (a b : Song) : bool := bool_decide (a = b).
Definition in_collection (s : Song) : bool := bool_decide (id s ≠ (-1)%Z).
Definition albumartist_or_artist (s : Song) : QString :=
  if isEmpty (albumartist s) then artist s else albumartist s.
Definition local_path (u : QUrl) : QString := u.

Definition a_song (n : Z) (path name by_artist on_album of_genre : QString)
    : Song :=
  mkSong true n path name by_artist on_album "" "" "" "" of_genre "" "" 0 0 0
    false "".

Definition song1 : Song := a_song 1 "/m/one.flac" "One" "Y" "X" "Rock".
Definition song2 : Song := a_song 2 "/m/two.flac" "Two" "Y" "X" "Rock".
Definition song3 : Song := a_song 3 "/m/three.flac" "Three" "Y" "Z" "Pop".
Definition stray : Song := a_song (-1) "/tmp/stray.flac" "Stray" "Y" "X" "Rock".

Definition batch : list Data :=
  [mkData song1 song1; mkData song2 song2; mkData song3 song3].

(** A file outside the collection, opened next to a song of the same
    album. *)
Definition with_stray : list Data := [mkData stray stray; mkData song1 song1].

(** The batch after the genre of the first two songs was edited. *)
Definition edited : list Data :=
  [mkData song1 (set_genre "Jazz" song1);
   mkData song2 (set_genre "Jazz" song2); mkData song3 song3].

(** Stand-ins for the tag reader: every song with a url is editable, the
    file holds what the song holds, and there is nothing to merge. *)
Definition editable (s : Song) : bool := negb (isEmpty (url s)).
Definition reread (filename : QString) (copy : Song) : Song := copy.
Definition merged (copy song : Song) : Song := copy.

End Sample.

Module TidalSample.
Import TidalCoverProvider.

(** Stand-ins for the library routines. *)
Definition externals : Externals := {|
  kApiUrl := "https://api.tidal.example/v1";
  kResourcesUrl := "https://resources.tidal.example";
  Logout := λ service, mkService false (country_code service) "";
  number := λ _, "10";
  arg := λ format a, format +:+ a;
  arg_int := λ format _, format;
  arg3 := λ _ a1 a2 a3, a1 +:+ "/images/" +:+ a2 +:+ "/" +:+ a3 +:+ ".jpg";
  replace := λ text _ _, text;
  toPercentEncoding := λ text, text;
  toUtf8 := λ text, text;
  fromJson := λ _, None;
  ExtractJsonObj := λ _, [];
  AlbumRemoveDiscMisc := λ text, text
|}.

Definition signed_in : Provider :=
  mkProvider (Some (mkService true "NO" "token")) [] [] [] [].

(** A search for an album, in flight under id 7. *)
Definition searching : Provider :=
  (StartSearch (qt := externals) "Y" "X" "" 7 signed_in).1.

(** A reply that failed with a refused connection. *)
Definition refused : ReplyContent := mkReply 1 "Connection refused" 0 "".

(** An answer with two albums and, between them, an element that is not an
    object; and stand-ins that read it from every body. *)
Definition an_album (artist_name album_title cover_id : QString)
    : QJsonValue :=
  JObject [("artist", JObject [("name", JString artist_name)]);
           ("title", JString album_title); ("cover", JString cover_id)].

Definition answer : QJsonObject :=
  [("items", JArray [an_album "Y" "X" "1-2"; JNull; an_album "Y" "Z" "3-4"])].

Definition reading : Externals := {|
  kApiUrl := "https://api.tidal.example/v1";
  kResourcesUrl := "https://resources.tidal.example";
  Logout := λ service, mkService false (country_code service) "";
  number := λ _, "10";
  arg := λ format a, format +:+ a;
  arg_int := λ format _, format;
  arg3 := λ _ a1 a2 a3, a1 +:+ "/images/" +:+ a2 +:+ "/" +:+ a3 +:+ ".jpg";
  replace := λ text _ _, text;
  toPercentEncoding := λ text, text;
  toUtf8 := λ text, text;
  fromJson := λ _, Some (JObject answer);
  ExtractJsonObj := λ _, answer;
  AlbumRemoveDiscMisc := λ text, text
|}.

Definition answered : ReplyContent := mkReply 0 "" 200 "{items}".

End TidalSample.

(** * Properties of the tag editor *)

Module EditTagDialogFacts.
Import EditTagDialog.

(** Case analysis on the key of a field, along the chain of comparisons of
    [value] and [set_value]. *)
Ltac by_key id :=
  repeat match goal with
         | |- context [String.eqb id ?k] =>
             destruct (String.eqb_spec id k) as [-> | ?]
         end.

Lemma key_known (id : QString) : id ∈ field_keys →
  id ∈ text_fields ∨ id ∈ number_fields ∨ id ∈ flag_fields.
Proof. unfold field_keys. rewrite !elem_of_app. tauto. Qed.

Section Fields.

Variable toString : QVariant → QString.
Variable toInt : QVariant → Z.
Variable toBool : QVariant → bool.

Hypothesis toString_QString : ∀ s, toString (QVString s) = s.
Hypothesis toInt_int : ∀ n, toInt (QVInt n) = n.
Hypothesis toBool_bool : ∀ b, toBool (QVBool b) = b.

#[local] Abbreviation set_song_value := (set_song_value toString toInt toBool).
#[local] Abbreviation set_value := (set_value toString toInt toBool).
#[local] Abbreviation set_value_each := (set_value_each toString toInt toBool).
#[local] Abbreviation reset_each := (reset_each toString toInt toBool).
#[local] Abbreviation UpdateFieldValue := (UpdateFieldValue toString toInt toBool).
#[local] Abbreviation UpdateFieldValues := (UpdateFieldValues toString toInt toBool).
#[local] Abbreviation ResetFieldValue := (ResetFieldValue toString toInt toBool).
#[local] Abbreviation ResetField := (ResetField toString toInt toBool).

(** Writing a field reads back, for a variant of the field's type. *)
Lemma value_set_song_value id v cur :
  value_fits id v = true → value (set_song_value id v cur) id = v.
Proof using toString_QString toInt_int toBool_bool.
  unfold value, EditTagDialog.set_song_value.
  destruct v as [|s|n|b]; simpl; intros Hfit; first done;
    apply bool_decide_eq_true in Hfit;
    repeat (apply elem_of_cons in Hfit as [-> | Hfit]);
    try (by apply elem_of_nil in Hfit); cbn;
    by rewrite ?toString_QString, ?toInt_int, ?toBool_bool.
Qed.

(** Writing back the value read from another song makes the two agree on
    the field, whatever the key. *)
Lemma value_set_song_value_from id orig cur :
  value (set_song_value id (value orig id) cur) id = value orig id.
Proof using toString_QString toInt_int toBool_bool.
  unfold value, EditTagDialog.set_song_value.
  by_key id; cbn;
    by rewrite ?toString_QString, ?toInt_int, ?toBool_bool.
Qed.

Lemma set_song_value_unknown id v cur :
  id ∉ field_keys → set_song_value id v cur = cur.
Proof using Type.
  intros Hid. unfold EditTagDialog.set_song_value.
  by_key id; try done; exfalso; apply Hid;
    apply (bool_decide_unpack _); vm_compute; exact I.
Qed.

Lemma original_set_value id v d : original_ (set_value id v d) = original_ d.
Proof using Type. reflexivity. Qed.

Lemma set_value_unknown id v d : id ∉ field_keys → set_value id v d = d.
Proof using Type.
  intros Hid. unfold EditTagDialog.set_value.
  rewrite set_song_value_unknown by done. by destruct d.
Qed.

Lemma rows_in_range_lookup row sel (data : list Data) :
  rows_in_range sel data → row ∈ sel → is_Some (data !! row).
Proof using Type.
  unfold rows_in_range. rewrite Forall_forall. intros Hsel Hrow.
  apply lookup_lt_is_Some. auto.
Qed.

Lemma rows_in_range_length sel (data data' : list Data) :
  length data' = length data → rows_in_range sel data →
  rows_in_range sel data'.
Proof using Type. unfold rows_in_range. intros ->. done. Qed.

(** The loop of [DoesValueVary] answers whether a later row differs. *)
Lemma DoesValueVary_loop_spec v rest id data :
  rows_in_range rest data →
  ∃ varies, DoesValueVary_loop v rest id data = Some varies ∧
    (varies = true ↔
     ∃ row d, row ∈ rest ∧ data !! row = Some d ∧ current_value d id ≠ v).
Proof using Type.
  induction rest as [|row rest IH]; intros Hsel.
  - exists false. split; first done. split; first done.
    intros (row & d & Hin & _). by apply elem_of_nil in Hin.
  - apply Forall_cons in Hsel as [Hrow Hrest].
    apply lookup_lt_is_Some in Hrow as [d Hd]. simpl. rewrite Hd. simpl.
    case_bool_decide as Hne.
    + exists true. split; first done. split; last done. intros _.
      exists row, d. split; first by left. split; first done. congruence.
    + destruct (IH Hrest) as (varies & -> & Hiff). exists varies.
      split; first done. rewrite Hiff. split.
      * intros (row' & d' & Hin & Hd' & Hdiff). exists row', d'.
        split; first by right. done.
      * intros (row' & d' & Hin & Hd' & Hdiff).
        apply elem_of_cons in Hin as [-> | Hin].
        -- congruence.
        -- by exists row', d'.
Qed.

Lemma IsValueModified_spec sel id data :
  rows_in_range sel data →
  ∃ modified, IsValueModified sel id data = Some modified ∧
    (modified = true ↔
     ∃ row d, row ∈ sel ∧ data !! row = Some d ∧
              original_value d id ≠ current_value d id).
Proof using Type.
  induction sel as [|row sel IH]; intros Hsel.
  - exists false. split; first done. split; first done.
    intros (row & d & Hin & _). by apply elem_of_nil in Hin.
  - apply Forall_cons in Hsel as [Hrow Hrest].
    apply lookup_lt_is_Some in Hrow as [d Hd]. simpl. rewrite Hd. simpl.
    case_bool_decide as Hne.
    + exists true. split; first done. split; last done. intros _.
      exists row, d. split; first by left. done.
    + destruct (IH Hrest) as (modified & -> & Hiff). exists modified.
      split; first done. rewrite Hiff. split.
      * intros (row' & d' & Hin & Hd' & Hdiff). exists row', d'.
        split; first by right. done.
      * intros (row' & d' & Hin & Hd' & Hdiff).
        apply elem_of_cons in Hin as [-> | Hin].
        -- congruence.
        -- by exists row', d'.
Qed.

(** The loop of [UpdateFieldValue] writes no original. *)
Lemma set_value_each_originals sel id v data data' :
  set_value_each sel id v data = Some data' →
  original_ <$> data' = original_ <$> data.
Proof using Type.
  revert data. induction sel as [|row sel IH]; intros data; simpl.
  - by intros [= ->].
  - destruct (data !! row) as [d|] eqn:Hd; simpl; last done.
    intros Hrun. rewrite (IH _ Hrun), list_fmap_insert.
    apply list_insert_id. by rewrite list_lookup_fmap, Hd.
Qed.

Lemma set_value_each_total sel id v data :
  rows_in_range sel data → is_Some (set_value_each sel id v data).
Proof using Type.
  revert data. induction sel as [|row sel IH]; intros data Hsel; simpl.
  - by eexists.
  - apply Forall_cons in Hsel as [Hrow Hrest].
    apply lookup_lt_is_Some in Hrow as [d ->]. simpl. apply IH.
    eapply rows_in_range_length; last done. by rewrite length_insert.
Qed.

Lemma set_value_each_unknown sel id v data data' :
  id ∉ field_keys → set_value_each sel id v data = Some data' → data' = data.
Proof using Type.
  intros Hid. revert data. induction sel as [|row sel IH]; intros data; simpl.
  - by intros [= ->].
  - destruct (data !! row) as [d|] eqn:Hd; simpl; last done.
    rewrite set_value_unknown by done. rewrite list_insert_id by done.
    apply IH.
Qed.

Lemma UpdateFieldValue_originals id sel v data data' modified :
  UpdateFieldValue id sel v data = Some (data', modified) →
  original_ <$> data' = original_ <$> data.
Proof using Type.
  unfold EditTagDialog.UpdateFieldValue. destruct (isValid v); simpl.
  - destruct (set_value_each sel id v data) as [data1|] eqn:Hrun; simpl;
      last done.
    destruct (UpdateModifiedField id sel data1); simpl; last done.
    intros [= <- _]. by eapply set_value_each_originals.
  - by intros [= <- _].
Qed.

Lemma UpdateFieldValues_originals id edits data data' :
  UpdateFieldValues id edits data = Some data' →
  original_ <$> data' = original_ <$> data.
Proof using Type.
  revert data. induction edits as [|[sel v] edits IH]; intros data; simpl.
  - by intros [= ->].
  - destruct (UpdateFieldValue id sel v data) as [[data1 m]|] eqn:Hrun;
      simpl; last done.
    intros Hrest. rewrite (IH _ Hrest).
    by eapply UpdateFieldValue_originals.
Qed.

(** The loop of [ResetFieldValue]: originals stay, every selected row reads
    its original value back on the field, other rows are not written. *)
Lemma reset_each_spec sel id data :
  rows_in_range sel data →
  ∃ data', reset_each sel id data = Some data' ∧
    length data' = length data ∧
    ∀ row d, data !! row = Some d →
      ∃ d', data' !! row = Some d' ∧ original_ d' = original_ d ∧
            (row ∈ sel → current_value d' id = original_value d id) ∧
            (row ∉ sel → d' = d).
Proof using toString_QString toInt_int toBool_bool.
  revert data. induction sel as [|row sel IH]; intros data Hsel; simpl.
  - exists data. split; first done. split; first done. intros row d Hd.
    exists d. split; first done. split; first done. split; last done.
    intros Hin. by apply elem_of_nil in Hin.
  - apply Forall_cons in Hsel as [Hrow Hrest].
    destruct (lookup_lt_is_Some_2 _ _ Hrow) as [d Hd]. rewrite Hd. simpl.
    set (d1 := set_value id (original_value d id) d).
    destruct (IH (<[row := d1]> data)) as (data' & -> & Hlen & Hrows).
    { eapply rows_in_range_length; last done. by rewrite length_insert. }
    exists data'. split; first done.
    split; first by rewrite Hlen, length_insert.
    intros row' d0 Hd0. destruct (decide (row' = row)) as [-> | Hne].
    + assert (d0 = d) as -> by congruence.
      destruct (Hrows row d1) as (d' & Hd' & Horig & Hsel' & Hrest').
      { by apply list_lookup_insert_eq. }
      exists d'. split; first done. split; first done. split.
      * intros _. destruct (decide (row ∈ sel)) as [Hin | Hnin].
        -- by rewrite (Hsel' Hin).
        -- rewrite (Hrest' Hnin). apply value_set_song_value_from.
      * intros Hnin. exfalso. apply Hnin. by left.
    + destruct (Hrows row' d0) as (d' & Hd' & Horig & Hsel' & Hrest').
      { by rewrite list_lookup_insert_ne. }
      exists d'. split; first done. split; first done. split.
      * intros Hin. apply elem_of_cons in Hin as [-> | Hin]; first done.
        by apply Hsel'.
      * intros Hnin. apply Hrest'. intros Hin. apply Hnin. by right.
Qed.

(** C3. For a non-empty selection, [FieldValue] returns the current value of
    the field in the first selected song, and its flag is true exactly when
    a later selected song holds a different current value.  On a selection of
    one song, setting the field to a value of its type and reading it back
    gives that value with the flag false. *)
Theorem FieldValue_first_and_varies id row0 rest data :
  rows_in_range (row0 :: rest) data →
  ∃ d0 varies,
    data !! row0 = Some d0 ∧
    FieldValue (row0 :: rest) id data = Some (current_value d0 id, varies) ∧
    (varies = true ↔
     ∃ row d, row ∈ rest ∧ data !! row = Some d ∧
              current_value d id ≠ current_value d0 id) ∧
    ∀ v, value_fits id v = true →
      ∃ data' modified,
        UpdateFieldValue id [row0] v data = Some (data', modified) ∧
        FieldValue [row0] id data' = Some (v, false).
Proof using toString_QString toInt_int toBool_bool.
  intros Hsel. apply Forall_cons in Hsel as [Hrow Hrest].
  destruct (lookup_lt_is_Some_2 _ _ Hrow) as [d0 Hd0].
  destruct (DoesValueVary_loop_spec (current_value d0 id) rest id data Hrest)
    as (varies & Hloop & Hiff).
  exists d0, varies. split; first done. split.
  { unfold FieldValue, DoesValueVary. simpl. rewrite Hd0. simpl.
    by rewrite Hloop. }
  split; first done.
  intros v Hfit. unfold EditTagDialog.UpdateFieldValue.
  assert (isValid v = true) as -> by (by destruct v). simpl.
  rewrite Hd0. simpl.
  set (data' := <[row0 := set_value id v d0]> data).
  assert (data' !! row0 = Some (set_value id v d0)) as Hd'
    by (by apply list_lookup_insert_eq).
  unfold UpdateModifiedField. simpl. rewrite Hd'. simpl.
  exists data',
    (Some (bool_decide (original_value (set_value id v d0) id
                        ≠ current_value (set_value id v d0) id))).
  split; first by case_bool_decide.
  unfold FieldValue, DoesValueVary. simpl. rewrite Hd'. simpl.
  unfold current_value. simpl. by rewrite value_set_song_value.
Qed.

(** C4. [IsModified] is true exactly when some selected song's current value
    of the field differs from its original value; it is false on the empty
    selection, and when every selected song agrees with its original. *)
Theorem IsValueModified_iff_some_row_differs sel id data :
  rows_in_range sel data →
  ∃ modified,
    IsValueModified sel id data = Some modified ∧
    (modified = true ↔
     ∃ row d, row ∈ sel ∧ data !! row = Some d ∧
              original_value d id ≠ current_value d id) ∧
    (sel = [] → modified = false) ∧
    ((∀ row d, row ∈ sel → data !! row = Some d →
               original_value d id = current_value d id) →
     modified = false).
Proof using Type.
  intros Hsel.
  destruct (IsValueModified_spec sel id data Hsel) as (modified & Hrun & Hiff).
  exists modified. split; first done. split; first done. split.
  - intros ->. simpl in Hrun. congruence.
  - intros Hsame. destruct modified; last done.
    destruct (proj1 Hiff eq_refl) as (row & d & Hin & Hd & Hdiff).
    exfalso. apply Hdiff. by eapply Hsame.
Qed.

(** C5. After any run of [SetFieldValue] calls on a field, [ResetField] over
    a selection leaves every selected song with the field's current value
    equal to its original value, the original being the one loaded, so that
    [IsModified] for the field over that selection is false. *)
Theorem ResetField_restores_original id edits sel data data1 :
  UpdateFieldValues id edits data = Some data1 →
  rows_in_range sel data →
  ∃ data2 display,
    ResetField id sel data1 = Some (data2, display) ∧
    (∀ row, row ∈ sel →
       ∃ d d2, data !! row = Some d ∧ data2 !! row = Some d2 ∧
               original_ d2 = original_ d ∧
               current_value d2 id = original_value d2 id) ∧
    IsValueModified sel id data2 = Some false ∧
    (sel ≠ [] → ∃ shown, display = Some (mkFieldDisplay shown false)).
Proof using toString_QString toInt_int toBool_bool.
  intros Hedits Hsel.
  pose proof (UpdateFieldValues_originals _ _ _ _ Hedits) as Horig.
  assert (length data1 = length data) as Hlen
    by (by rewrite <- (length_fmap original_), Horig, length_fmap).
  assert (rows_in_range sel data1) as Hsel1
    by (by eapply rows_in_range_length).
  destruct (reset_each_spec sel id data1 Hsel1) as (data2 & Hrun & Hlen2 & Hrows).
  assert (rows_in_range sel data2) as Hsel2
    by (by eapply rows_in_range_length).
  assert (∀ row, row ∈ sel →
            ∃ d d2, data !! row = Some d ∧ data2 !! row = Some d2 ∧
                    original_ d2 = original_ d ∧
                    current_value d2 id = original_value d2 id) as Hrestored.
  { intros row Hin.
    destruct (rows_in_range_lookup row sel data Hsel Hin) as [d Hd].
    destruct (rows_in_range_lookup row sel data1 Hsel1 Hin) as [d1 Hd1].
    destruct (Hrows row d1 Hd1) as (d2 & Hd2 & Horig2 & Hcur & _).
    exists d, d2. split; first done. split; first done.
    assert (original_ d1 = original_ d) as Hsame.
    { apply (f_equal (λ l, l !! row)) in Horig.
      rewrite !list_lookup_fmap, Hd, Hd1 in Horig. by injection Horig. }
    split; first congruence.
    rewrite (Hcur Hin). unfold original_value. by rewrite Horig2. }
  assert (IsValueModified sel id data2 = Some false) as Hclean.
  { destruct (IsValueModified_spec sel id data2 Hsel2) as ([|] & -> & Hiff);
      last done.
    destruct (proj1 Hiff eq_refl) as (row & d2 & Hin & Hd2 & Hdiff).
    destruct (Hrestored row Hin) as (d & d2' & _ & Hd2' & _ & Hcur).
    exfalso. apply Hdiff. congruence. }
  unfold EditTagDialog.ResetField, EditTagDialog.ResetFieldValue.
  destruct sel as [|row0 rest].
  - simpl in Hrun. injection Hrun as <-. exists data1, None.
    rewrite bool_decide_eq_true_2 by done.
    split; first done. split; first done. split; done.
  - rewrite bool_decide_eq_false_2 by done. rewrite Hrun. simpl.
    unfold InitFieldValue, UpdateModifiedField. rewrite Hclean.
    pose proof Hsel2 as Hsel2'. apply Forall_cons in Hsel2' as [Hrow0 Hrest].
    destruct (lookup_lt_is_Some_2 _ _ Hrow0) as [d0 Hd0].
    destruct (DoesValueVary_loop_spec (current_value d0 id) rest id data2 Hrest)
      as (varies & Hloop & _).
    unfold DoesValueVary. rewrite Hd0. simpl. rewrite Hloop. simpl.
    destruct varies; simpl; rewrite ?Hd0; simpl; eexists data2, _;
      (split; first done); (split; first done); (split; first done);
      intros _; by eexists.
Qed.

(** C6. A field edit writes no original record: [set_value] returns the
    original it was given, [SetFieldValue] over any selection leaves the
    original of every song of the batch as it was, and for a key outside the
    namespace neither record of any song changes. *)
Theorem UpdateFieldValue_keeps_original id sel v data :
  rows_in_range sel data →
  (∀ d, original_ (set_value id v d) = original_ d ∧
        (id ∉ field_keys → set_value id v d = d)) ∧
  ∃ data' modified,
    UpdateFieldValue id sel v data = Some (data', modified) ∧
    length data' = length data ∧
    (∀ row d, data !! row = Some d →
       ∃ d', data' !! row = Some d' ∧ original_ d' = original_ d) ∧
    (id ∉ field_keys → data' = data).
Proof using Type.
  intros Hsel. split.
  { intros d. split; first done. apply set_value_unknown. }
  assert (∃ data' modified,
            UpdateFieldValue id sel v data = Some (data', modified) ∧
            (id ∉ field_keys → data' = data)) as (data' & modified & Hrun & Hun).
  { unfold EditTagDialog.UpdateFieldValue. destruct (isValid v); simpl.
    - destruct (set_value_each_total sel id v data Hsel) as [data' Hrun].
      rewrite Hrun. simpl.
      assert (length data' = length data) as Hlen.
      { rewrite <- (length_fmap original_).
        rewrite (set_value_each_originals _ _ _ _ _ Hrun).
        by rewrite length_fmap. }
      destruct (IsValueModified_spec sel id data') as (modified & Hmod & _).
      { by eapply rows_in_range_length. }
      unfold UpdateModifiedField. rewrite Hmod. simpl.
      eexists data', _. split; first done.
      intros Hid. by eapply set_value_each_unknown.
    - by eexists data, _. }
  exists data', modified. split; first done.
  pose proof (UpdateFieldValue_originals _ _ _ _ _ _ Hrun) as Horig.
  split.
  { by rewrite <- (length_fmap original_), Horig, length_fmap. }
  split; last done.
  intros row d Hd. apply (f_equal (λ l, l !! row)) in Horig.
  rewrite !list_lookup_fmap, Hd in Horig.
  destruct (data' !! row) as [d'|]; last done.
  exists d'. split; first done. by injection Horig.
Qed.

End Fields.

Lemma FieldValue_first_and_varies_witness :
  rows_in_range [0; 1; 2] Sample.batch ∧
  FieldValue [0; 1; 2] "genre" Sample.batch = Some (QVString "Rock", true).
Proof.
  assert (rows_in_range [0; 1; 2] Sample.batch) as Hsel
    by (repeat (constructor; [simpl; lia|]); constructor).
  split; first exact Hsel.
  destruct (FieldValue_first_and_varies
              Sample.held_string Sample.held_int Sample.held_bool
              (λ _, eq_refl) (λ _, eq_refl) (λ _, eq_refl) "genre" 0 [1; 2] Sample.batch Hsel)
    as (d0 & varies & Hd0 & Hvalue & Hiff & _).
  injection Hd0 as <-. rewrite Hvalue. f_equal. f_equal.
  apply Hiff. exists 2, (mkData Sample.song3 Sample.song3).
  split; first by repeat constructor. split; first done. by vm_compute.
Defined.

Lemma IsValueModified_iff_some_row_differs_witness :
  rows_in_range [0; 2] Sample.batch ∧
  IsValueModified [0; 2] "genre" Sample.batch = Some false.
Proof.
  assert (rows_in_range [0; 2] Sample.batch) as Hsel
    by (repeat (constructor; [simpl; lia|]); constructor).
  split; first exact Hsel.
  destruct (IsValueModified_iff_some_row_differs [0; 2] "genre" Sample.batch
              Hsel) as (modified & Hrun & _ & _ & Hsame).
  rewrite Hrun. f_equal. apply Hsame. intros row d Hin Hd.
  repeat (apply elem_of_cons in Hin as [-> | Hin]);
    try (by apply elem_of_nil in Hin); by injection Hd as <-.
Defined.

Lemma ResetField_restores_original_witness :
  ∃ data2 display,
    ResetField Sample.held_string Sample.held_int Sample.held_bool
      "genre" [0; 1]
      (<[0 := mkData Sample.song1 (set_genre "Jazz" Sample.song1)]>
         (<[1 := mkData Sample.song2 (set_genre "Jazz" Sample.song2)]>
            Sample.batch))
    = Some (data2, display) ∧
    IsValueModified [0; 1] "genre" data2 = Some false.
Proof.
  destruct (ResetField_restores_original
              Sample.held_string Sample.held_int Sample.held_bool
              (λ _, eq_refl) (λ _, eq_refl) (λ _, eq_refl)
              "genre" [([0; 1], QVString "Blues"); ([0; 1], QVString "Jazz")]
              [0; 1] Sample.batch
              (<[0 := mkData Sample.song1 (set_genre "Jazz" Sample.song1)]>
                 (<[1 := mkData Sample.song2 (set_genre "Jazz" Sample.song2)]>
                    Sample.batch)))
    as (data2 & display & Hreset & _ & Hclean & _).
  - reflexivity.
  - repeat (constructor; [simpl; lia|]); constructor.
  - by exists data2, display.
Defined.

Lemma UpdateFieldValue_keeps_original_witness :
  ∃ data' modified,
    UpdateFieldValue Sample.held_string Sample.held_int Sample.held_bool
      "genre" [0; 1] (QVString "Jazz") Sample.batch = Some (data', modified) ∧
    original_ <$> data' = original_ <$> Sample.batch.
Proof.
  destruct (UpdateFieldValue_keeps_original
              Sample.held_string Sample.held_int Sample.held_bool
              "genre" [0; 1] (QVString "Jazz") Sample.batch)
    as (_ & data' & modified & Hrun & _).
  - repeat (constructor; [simpl; lia|]); constructor.
  - exists data', modified. split; first done.
    by eapply UpdateFieldValue_originals.
Defined.

Section Commit.

Variable IsMetadataEqual : Song → Song → bool.
Variable is_collection_song : Song → bool.
Variable toLocalFile : QUrl → QString.

#[local] Abbreviation SaveData_loop := (SaveData_loop IsMetadataEqual toLocalFile).
#[local] Abbreviation SaveData := (SaveData IsMetadataEqual toLocalFile).
#[local] Abbreviation accept := (accept IsMetadataEqual toLocalFile).
#[local] Abbreviation written := (written IsMetadataEqual toLocalFile).
#[local] Abbreviation SongSaveComplete := (SongSaveComplete is_collection_song).
#[local] Abbreviation Finished := (Finished is_collection_song).
#[local] Abbreviation deliver := (deliver is_collection_song).
#[local] Abbreviation arrival_events := (arrival_events is_collection_song).

Lemma written_cons ref tag_data :
  written (ref :: tag_data) =
  if IsMetadataEqual (current_ ref) (original_ ref) then written tag_data
  else (toLocalFile (url (current_ ref)), current_ ref) :: written tag_data.
Proof using Type.
  unfold EditTagDialog.written. rewrite filter_cons.
  destruct (IsMetadataEqual (current_ ref) (original_ ref)) eqn:Heq.
  - by rewrite decide_False.
  - by rewrite decide_True.
Qed.

Lemma SaveData_loop_spec tag_data s :
  SaveData_loop tag_data s =
  mkDialog (data_ s) (loading_ s)
    (pending_ s + Z.of_nat (length (written tag_data)))
    (outstanding s ++ written tag_data)
    (trace s ++ save_events (written tag_data)).
Proof using Type.
  revert s. induction tag_data as [|ref tag_data IH]; intros s; simpl.
  - destruct s. simpl. f_equal; [lia | by rewrite app_nil_r ..].
  - rewrite written_cons.
    destruct (IsMetadataEqual (current_ ref) (original_ ref)) eqn:Heq.
    + apply IH.
    + rewrite IH. simpl. unfold save_events. simpl.
      rewrite <- !app_assoc. simpl. f_equal. lia.
Qed.

(** [accept] on an idle dialog: the writes go out in order; with none to
    issue the dialog is closed on the spot. *)
Lemma accept_idle s :
  idle s →
  accept s =
  mkDialog (data_ s) (negb (bool_decide (written (data_ s) = [])))
    (Z.of_nat (length (written (data_ s)))) (written (data_ s))
    (trace s ++ save_events (written (data_ s))
       ++ (if bool_decide (written (data_ s) = []) then [DialogAccept]
           else [])).
Proof using Type.
  intros (Hload & Hpend & Hrep). destruct s as [data loading pending replies tr].
  simpl in *. subst. unfold EditTagDialog.accept, SetLoading. simpl.
  unfold EditTagDialog.SaveData. rewrite SaveData_loop_spec. simpl.
  destruct (written data) as [|w ws] eqn:Hw; simpl.
  - by rewrite !app_nil_r.
  - by rewrite app_nil_r.
Qed.

(** One completion while saving. *)
Lemma Finished_saving n success s s1 :
  saving s → Finished n success s = Some s1 →
  ∃ w, outstanding s !! n = Some w ∧
    data_ s1 = data_ s ∧
    outstanding s1 = delete n (outstanding s) ∧
    pending_ s1 = Z.of_nat (length (outstanding s1)) ∧
    loading_ s1 = negb (bool_decide (outstanding s1 = [])) ∧
    trace s1 = trace s ++ arrival_events (w, success)
                 ++ (if bool_decide (outstanding s1 = []) then [DialogAccept]
                     else []).
Proof using Type.
  intros (Hload & Hpend & Hne). unfold EditTagDialog.Finished.
  destruct (outstanding s !! n) as [[filename song]|] eqn:Hn; simpl; last done.
  intros [= <-]. exists (filename, song). split; first done.
  assert (length (delete n (outstanding s)) = length (outstanding s) - 1) as Hlen
    by (apply length_delete; by eexists).
  assert (0 < length (outstanding s)) as Hpos
    by (by apply lookup_lt_Some in Hn; lia).
  unfold EditTagDialog.SongSaveComplete, EditTagDialog.arrival_events.
  unfold AcceptFinished, SetLoading, emit. simpl. rewrite Hload, Hpend.
  destruct (delete n (outstanding s)) as [|w ws] eqn:Hdel; simpl in *.
  - assert (Z.of_nat (length (outstanding s)) - 1 = 0)%Z as -> by lia.
    destruct success; simpl; [destruct (is_collection_song song)|]; simpl;
      rewrite <- ?app_assoc; by repeat split.
  - assert (Z.of_nat (length (outstanding s)) - 1
            = Z.pos (Pos.of_succ_nat (length ws)))%Z as -> by lia.
    destruct success; simpl; [destruct (is_collection_song song)|]; simpl;
      rewrite ?app_nil_r; by repeat split.
Qed.

Lemma deliver_idle cs s s' :
  outstanding s = [] → deliver cs s = Some s' → cs = [] ∧ s' = s.
Proof using Type.
  intros Hrep. destruct cs as [|[n success] cs]; simpl.
  - by intros [= ->].
  - unfold EditTagDialog.Finished. by rewrite Hrep.
Qed.

(** A run of completions while saving: the arrivals are writes that were
    outstanding, each sends out its own events when it arrives, and the
    dialog is closed by the arrival that leaves none outstanding. *)
Lemma deliver_saving cs s s' :
  saving s → deliver cs s = Some s' →
  ∃ arrived,
    arrivals cs (outstanding s) = Some arrived ∧
    arrived.*1 ++ outstanding s' ≡ₚ outstanding s ∧
    data_ s' = data_ s ∧
    pending_ s' = Z.of_nat (length (outstanding s')) ∧
    loading_ s' = negb (bool_decide (outstanding s' = [])) ∧
    trace s' = trace s ++ flat_map arrival_events arrived
                 ++ (if bool_decide (length cs = length (outstanding s))
                     then [DialogAccept] else []).
Proof using Type.
  revert s. induction cs as [|[n success] cs IH]; intros s Hs; simpl.
  - intros [= <-]. destruct Hs as (Hload & Hpend & Hne).
    exists []. simpl. split; first done. split; first done.
    split; first done. split; first done.
    rewrite !bool_decide_eq_false_2; [by rewrite Hload, app_nil_r | | done].
    destruct (outstanding s); done.
  - destruct (Finished n success s) as [s1|] eqn:Hstep; simpl; last done.
    intros Hrun.
    destruct (Finished_saving _ _ _ _ Hs Hstep)
      as (w & Hn & Hdata1 & Hrep1 & Hpend1 & Hload1 & Htrace1).
    pose proof (delete_Permutation _ _ _ Hn) as Hperm.
    assert (length (outstanding s) = S (length (outstanding s1))) as Hlen
      by (by rewrite Hrep1, (Permutation_length Hperm)).
    rewrite Hn. simpl. rewrite <- Hrep1.
    destruct (decide (outstanding s1 = [])) as [Hnil | Hmore].
    + destruct (deliver_idle _ _ _ Hnil Hrun) as [-> ->].
      exists [(w, success)]. simpl. rewrite Hnil. simpl.
      split; first done. split.
      { rewrite Hperm, <- Hrep1, Hnil. done. }
      split; first done. split; first by rewrite Hpend1, Hnil.
      split; first by rewrite Hload1, Hnil.
      rewrite Htrace1, Hnil in *. simpl in Hlen.
      rewrite !bool_decide_eq_true_2 by (done || lia).
      by rewrite app_nil_r.
    + assert (saving s1) as Hs1.
      { split; last done. rewrite Hload1.
        by rewrite bool_decide_eq_false_2. }
      destruct (IH s1 Hs1 Hrun)
        as (arrived & -> & Hperm' & Hdata & Hpend' & Hload' & Htrace').
      exists ((w, success) :: arrived). simpl. split; first done. split.
      { rewrite Hperm, <- Hrep1, <- Hperm'. done. }
      split; first congruence. split; first done. split; first done.
      rewrite Htrace', Htrace1.
      rewrite (bool_decide_eq_false_2 (outstanding s1 = [])) by done.
      assert (bool_decide (S (length cs) = length (outstanding s))
              = bool_decide (length cs = length (outstanding s1))) as ->
        by (apply bool_decide_ext; lia).
      by rewrite <- !app_assoc.
Qed.

Lemma arrivals_outcomes cs out arrived :
  arrivals cs out = Some arrived →
  length arrived = length cs ∧ arrived.*2 = cs.*2.
Proof using Type.
  revert out arrived.
  induction cs as [|[n success] cs IH]; intros out arrived; simpl.
  - by intros [= <-].
  - destruct (out !! n) as [w|]; simpl; last done.
    destruct (arrivals cs (delete n out)) as [rest|] eqn:Hrest; simpl;
      last done.
    intros [= <-]. destruct (IH _ _ Hrest) as [Hlen Hout].
    split; [by apply (f_equal S) | by apply (f_equal (cons success))].
Qed.

Lemma saves_save_events ws : saves (save_events ws) = ws.
Proof using Type.
  induction ws as [|[filename song] ws IH]; first done.
  change (saves (save_events ((filename, song) :: ws)))
    with ((filename, song) :: saves (save_events ws)).
  by rewrite IH.
Qed.

Lemma saves_arrival_events arrived :
  saves (flat_map arrival_events arrived) = [].
Proof using Type.
  induction arrived as [|[[filename song] success] arrived IH]; first done.
  change (saves (flat_map arrival_events ((filename, song, success) :: arrived)))
    with (saves (arrival_events (filename, song, success)
                 ++ flat_map arrival_events arrived)).
  unfold saves in *. rewrite omap_app, IH, app_nil_r.
  unfold EditTagDialog.arrival_events. simpl.
  destruct success; simpl; last done. by destruct (is_collection_song song).
Qed.

Lemma accepts_app tr1 tr2 : accepts (tr1 ++ tr2) = accepts tr1 + accepts tr2.
Proof using Type. unfold accepts. by rewrite filter_app, length_app. Qed.

Lemma accepts_save_events ws : accepts (save_events ws) = 0.
Proof using Type. induction ws as [|w ws IH]; done. Qed.

Lemma accepts_arrival_events arrived :
  accepts (flat_map arrival_events arrived) = 0.
Proof using Type.
  induction arrived as [|[[filename song] success] arrived IH]; first done.
  simpl. rewrite accepts_app, IH. unfold EditTagDialog.arrival_events. simpl.
  destruct success; simpl; last done. by destruct (is_collection_song song).
Qed.

(** A commit from the idle state, up to any point of the arrivals. *)
Lemma commit_run s cs s' :
  idle s → deliver cs (accept s) = Some s' →
  ∃ arrived,
    arrivals cs (written (data_ s)) = Some arrived ∧
    arrived.*1 ++ outstanding s' ≡ₚ written (data_ s) ∧
    data_ s' = data_ s ∧
    pending_ s' = Z.of_nat (length (outstanding s')) ∧
    loading_ s' = negb (bool_decide (outstanding s' = [])) ∧
    trace s' = trace s ++ save_events (written (data_ s))
                 ++ flat_map arrival_events arrived
                 ++ (if bool_decide (length cs = length (written (data_ s)))
                     then [DialogAccept] else []).
Proof using Type.
  intros Hidle. rewrite (accept_idle s Hidle).
  destruct (decide (written (data_ s) = [])) as [Hnone | Hsome].
  - rewrite Hnone. simpl. intros Hrun.
    apply deliver_idle in Hrun as [-> ->]; last done.
    exists []. simpl. by repeat split.
  - rewrite !(bool_decide_eq_false_2 (written (data_ s) = [])) by done.
    simpl. intros Hrun. apply deliver_saving in Hrun; last by repeat split.
    simpl in Hrun.
    destruct Hrun as (arrived & Harr & Hperm & Hdata & Hpend & Hload & Htrace).
    exists arrived. repeat (split; first done).
    by rewrite Htrace, app_nil_r, <- !app_assoc.
Qed.

(** The arrivals can come in the order of issue, whatever their outcomes. *)
Lemma deliver_in_order outcomes s :
  saving s → length outcomes ≤ length (outstanding s) →
  is_Some (deliver (pair 0 <$> outcomes) s).
Proof using Type.
  revert s. induction outcomes as [|success outcomes IH]; intros s Hs Hlen;
    simpl; first by eexists.
  destruct (outstanding s) as [|w ws] eqn:Hrep; simpl in Hlen; first lia.
  destruct (Finished 0 success s) as [s1|] eqn:Hstep; simpl.
  - destruct (Finished_saving _ _ _ _ Hs Hstep)
      as (w' & _ & _ & Hrep1 & Hpend1 & Hload1 & _).
    rewrite Hrep in Hrep1. simpl in Hrep1.
    destruct outcomes as [|success' outcomes']; first by eexists.
    apply IH.
    + split; first by (rewrite Hload1, Hrep1; destruct ws; simpl in *; [lia|]).
      split; first done. rewrite Hrep1. destruct ws; simpl in *; [lia | done].
    + rewrite Hrep1. lia.
  - unfold EditTagDialog.Finished in Hstep. rewrite Hrep in Hstep.
    by destruct w.
Qed.

(** C1. [Commit] on an idle dialog issues one write for each entry whose
    current record is not metadata-equal to its original, carrying the
    current record under its local file name, and nothing more; it closes
    the dialog once, with the arrival that leaves no write outstanding and
    whatever the outcomes were, and at once when there is nothing to
    write. *)
Theorem accept_writes_modified_and_completes_once s :
  idle s →
  let ws := written (data_ s) in
  length ws =
    length (filter (λ ref, IsMetadataEqual (current_ ref) (original_ ref)
                           = false) (data_ s)) ∧
  saves (trace (accept s)) = saves (trace s) ++ ws ∧
  (ws = [] → trace (accept s) = trace s ++ [DialogAccept]) ∧
  (∀ outcomes, length outcomes = length ws →
     is_Some (deliver (pair 0 <$> outcomes) (accept s))) ∧
  ∀ cs s', deliver cs (accept s) = Some s' →
    length cs ≤ length ws ∧
    saves (trace s') = saves (trace s) ++ ws ∧
    accepts (trace s') =
      accepts (trace s)
      + (if bool_decide (length cs = length ws) then 1 else 0) ∧
    (length cs = length ws → last (trace s') = Some DialogAccept ∧ idle s').
Proof using Type.
  intros Hidle ws.
  assert (∀ cs s', deliver cs (accept s) = Some s' →
            length cs ≤ length ws ∧
            saves (trace s') = saves (trace s) ++ ws ∧
            accepts (trace s') =
              accepts (trace s)
              + (if bool_decide (length cs = length ws) then 1 else 0) ∧
            (length cs = length ws →
             last (trace s') = Some DialogAccept ∧ idle s')) as Hruns.
  { intros cs s' Hrun.
    destruct (commit_run s cs s' Hidle Hrun)
      as (arrived & Harr & Hperm & Hdata & Hpend & Hload & Htrace).
    destruct (arrivals_outcomes _ _ _ Harr) as [Hlen _].
    apply Permutation_length in Hperm.
    rewrite length_app, length_fmap, Hlen in Hperm. fold ws in Hperm, Htrace.
    split; first lia. split.
    { rewrite Htrace. unfold saves. rewrite !omap_app. fold (saves (trace s)).
      fold (saves (save_events ws)).
      fold (saves (flat_map arrival_events arrived)).
      rewrite saves_save_events, saves_arrival_events.
      destruct (bool_decide (length cs = length ws)); simpl;
        by rewrite app_nil_r. }
    split.
    { rewrite Htrace, !accepts_app, accepts_save_events,
        accepts_arrival_events.
      by destruct (bool_decide (length cs = length ws)). }
    intros Hall. rewrite Htrace, bool_decide_eq_true_2 by done.
    split; first by rewrite !app_assoc, last_snoc.
    assert (outstanding s' = []) as Hnil
      by (apply length_zero_iff_nil; lia).
    unfold idle. by rewrite Hload, Hpend, Hnil. }
  split; first by (unfold ws, EditTagDialog.written; rewrite length_fmap).
  split; first by apply (Hruns [] (accept s)).
  split.
  { intros Hnone. rewrite (accept_idle s Hidle). fold ws. rewrite Hnone.
    done. }
  split; last done.
  intros outcomes Hlen. rewrite (accept_idle s Hidle). fold ws.
  destruct (decide (ws = [])) as [Hnone | Hsome].
  - rewrite Hnone in Hlen. destruct outcomes; last done. by eexists.
  - apply deliver_in_order.
    + rewrite !(bool_decide_eq_false_2 (ws = [])) by done. by repeat split.
    + simpl. lia.
Qed.

(** C7, as the code has it.  When all the writes of a commit have been
    answered, the trace is: the writes, all issued before any answer; then,
    for each arrival in turn, its own events, which are an error message
    naming that file for a failed write and the upsert of the song for a
    successful write of a collection song; then the closing of the dialog.
    The arrivals are the issued writes in some order. *)
Theorem write_failures_reported_on_arrival s cs s' :
  idle s → deliver cs (accept s) = Some s' →
  length cs = length (written (data_ s)) →
  ∃ arrived,
    arrivals cs (written (data_ s)) = Some arrived ∧
    arrived.*1 ≡ₚ written (data_ s) ∧
    arrived.*2 = cs.*2 ∧
    trace s' = trace s ++ save_events (written (data_ s))
                 ++ flat_map arrival_events arrived ++ [DialogAccept].
Proof using Type.
  intros Hidle Hrun Hall.
  destruct (commit_run s cs s' Hidle Hrun)
    as (arrived & Harr & Hperm & _ & _ & _ & Htrace).
  destruct (arrivals_outcomes _ _ _ Harr) as [Hlen Hout].
  exists arrived. split; first done.
  assert (outstanding s' = []) as Hnil.
  { apply Permutation_length in Hperm.
    rewrite length_app, length_fmap, Hlen in Hperm.
    apply length_zero_iff_nil. lia. }
  rewrite Hnil, app_nil_r in Hperm. split; first done. split; first done.
  by rewrite Htrace, bool_decide_eq_true_2.
Qed.

End Commit.

Lemma accept_writes_modified_and_completes_once_witness :
  idle (loaded Sample.edited) ∧
  saves (trace (accept Sample.same_tags Sample.local_path
                  (loaded Sample.edited)))
  = [("/m/one.flac", set_genre "Jazz" Sample.song1);
     ("/m/two.flac", set_genre "Jazz" Sample.song2)].
Proof.
  assert (idle (loaded Sample.edited)) as Hidle by (by repeat split).
  split; first exact Hidle.
  destruct (accept_writes_modified_and_completes_once
              Sample.same_tags Sample.in_collection Sample.local_path
              (loaded Sample.edited) Hidle) as (_ & Hsaves & _).
  rewrite Hsaves. reflexivity.
Defined.

Lemma write_failures_reported_on_arrival_witness :
  ∃ s', deliver Sample.in_collection [(1, true); (0, false)]
          (accept Sample.same_tags Sample.local_path (loaded Sample.edited))
        = Some s' ∧
    trace s' =
    [SaveFile "/m/one.flac" (set_genre "Jazz" Sample.song1);
     SaveFile "/m/two.flac" (set_genre "Jazz" Sample.song2);
     AddOrUpdateSongs [set_genre "Jazz" Sample.song2];
     Error "An error occurred writing metadata to '/m/one.flac'";
     DialogAccept].
Proof.
  eexists. split; first by vm_compute.
  destruct (write_failures_reported_on_arrival
              Sample.same_tags Sample.in_collection Sample.local_path
              (loaded Sample.edited) [(1, true); (0, false)] _
              ltac:(by repeat split) eq_refl eq_refl)
    as (arrived & Harr & _ & _ & Htrace).
  injection Harr as <-. exact Htrace.
Defined.

(** C7 as stated fails: with two writes outstanding, the failure of the first
    to arrive sends its error message while the other write is still
    pending and the dialog is open; and in the finished commit the message
    stands before the closing of the dialog. *)
Lemma error_before_completion_counterexample :
  ∃ s1 s2,
    deliver Sample.in_collection [(0, false)]
      (accept Sample.same_tags Sample.local_path (loaded Sample.edited))
    = Some s1 ∧
    pending_ s1 = 1%Z ∧
    last (trace s1)
    = Some (Error "An error occurred writing metadata to '/m/one.flac'") ∧
    accepts (trace s1) = 0 ∧
    deliver Sample.in_collection [(0, false); (0, true)]
      (accept Sample.same_tags Sample.local_path (loaded Sample.edited))
    = Some s2 ∧
    ¬ errors_after_completion (trace s2).
Proof.
  eexists _, _. split; first by vm_compute.
  split; first done. split; first done. split; first done.
  split; first by vm_compute.
  intros Hafter.
  destruct (Hafter 2 "An error occurred writing metadata to '/m/one.flac'"
              eq_refl) as (j & Hj & Hclosed).
  by destruct j as [|[|j]]; [| | lia].
Qed.

Section Cover.

Variable effective_albumartist : Song → QString.

#[local] Abbreviation UpdateCoverOf_row := (UpdateCoverOf_row effective_albumartist).
#[local] Abbreviation UpdateCoverOf_loop := (UpdateCoverOf_loop effective_albumartist).
#[local] Abbreviation UpdateCoverOf := (UpdateCoverOf effective_albumartist).
#[local] Abbreviation SetCoverArt := (SetCoverArt effective_albumartist).
#[local] Abbreviation same_album := (same_album effective_albumartist).
#[local] Abbreviation cover_propagated := (cover_propagated effective_albumartist).

(** The loop rewrites the rows it visits, each from its own content, and no
    other row. *)
Lemma UpdateCoverOf_loop_spec rows selected first rest cover_url data :
  NoDup rows → Forall (λ i, i < length data) rows →
  ∃ data',
    UpdateCoverOf_loop rows selected (first :: rest) cover_url data
    = Some data' ∧
    length data' = length data ∧
    ∀ i d, data !! i = Some d →
      data' !! i =
      Some (if decide (i ∈ rows)
            then UpdateCoverOf_row selected first cover_url i d else d).
Proof using Type.
  revert data. induction rows as [|i rows IH]; intros data Hnodup Hrange.
  - exists data. split; first done. split; first done. intros i d Hd.
    by rewrite decide_False by apply not_elem_of_nil.
  - apply NoDup_cons in Hnodup as [Hfresh Hnodup].
    apply Forall_cons in Hrange as [Hi Hrange].
    destruct (lookup_lt_is_Some_2 _ _ Hi) as [d Hd]. simpl. rewrite Hd. simpl.
    set (d1 := UpdateCoverOf_row selected first cover_url i d).
    destruct (IH (<[i := d1]> data)) as (data' & -> & Hlen & Hrows);
      [done | by rewrite length_insert |].
    exists data'. split; first done.
    split; first by rewrite Hlen, length_insert.
    intros j dj Hdj. destruct (decide (j = i)) as [-> | Hne].
    + assert (dj = d) as -> by congruence.
      rewrite (Hrows i d1) by (by apply list_lookup_insert_eq).
      rewrite decide_False by done. rewrite decide_True by (by left). done.
    + rewrite (Hrows j dj) by (by rewrite list_lookup_insert_ne).
      destruct (decide (j ∈ rows)) as [Hin | Hnin].
      * by rewrite decide_True by (by right).
      * rewrite decide_False; first done.
        intros Hin. apply elem_of_cons in Hin as [? | ?]; done.
Qed.

(** Over all rows the loop is a map with the row number. *)
Lemma UpdateCoverOf_loop_all selected first rest cover_url data :
  UpdateCoverOf_loop (seq 0 (length data)) selected (first :: rest) cover_url
    data
  = Some (imap (UpdateCoverOf_row selected first cover_url) data).
Proof using Type.
  destruct (UpdateCoverOf_loop_spec (seq 0 (length data)) selected first rest
              cover_url data) as (data' & -> & Hlen & Hrows).
  { apply NoDup_seq. }
  { apply Forall_forall. intros i Hi. apply elem_of_seq in Hi. lia. }
  f_equal. apply list_eq. intros i. rewrite list_lookup_imap.
  destruct (data !! i) as [d|] eqn:Hd; simpl.
  - rewrite (Hrows i d Hd). rewrite decide_True; first done.
    apply elem_of_seq. apply lookup_lt_Some in Hd. lia.
  - apply lookup_ge_None. rewrite Hlen. by apply lookup_ge_None.
Qed.

(** The song [UpdateCoverOf] holds by reference is not written by the
    loop. *)
Lemma UpdateCoverOf_loop_first selected first rest cover_url data data' e :
  UpdateCoverOf_loop (seq 0 (length data)) selected (first :: rest) cover_url
    data = Some data' →
  data !! first = Some e →
  ∃ e', data' !! first = Some e' ∧ original_ e' = original_ e.
Proof using Type.
  rewrite UpdateCoverOf_loop_all. intros [= <-] He.
  rewrite list_lookup_imap, He. simpl. eexists. split; first done.
  unfold EditTagDialog.UpdateCoverOf_row.
  by rewrite (bool_decide_eq_false_2 (first ≠ first)) by (by intros []).
Qed.

(** C2, with the guard of the code.  When the original record of the first
    selected entry is valid and carries a collection id, [SetCoverArt] sets
    the manual art of the original of every other entry of the same album
    (album artist and album both equal) to the url, leaves the manual art of
    the original of every entry of another album as it was, and then makes
    every entry's current manual art equal to that of its own original. *)
Theorem SetCoverArt_propagates_within_album sel cover_url s first e :
  head sel = Some first → data_ s !! first = Some e →
  is_valid (original_ e) = true → id (original_ e) ≠ (-1)%Z →
  ∃ s', SetCoverArt sel cover_url s = Some s' ∧
        cover_propagated sel cover_url s s'.
Proof using Type.
  intros Hfirst He Hvalid Hid.
  destruct sel as [|first' rest]; first done. injection Hfirst as ->.
  unfold EditTagDialog.SetCoverArt, EditTagDialog.UpdateCoverOf. simpl.
  rewrite He. simpl. rewrite Hvalid. simpl.
  destruct (Z.eqb_spec (id (original_ e)) (-1)) as [? | _]; first done.
  rewrite UpdateCoverOf_loop_all. simpl. eexists. split; first done.
  exists first, e. simpl. split; first done. split; first done.
  split; first by rewrite length_imap.
  intros i d Hd. rewrite list_lookup_imap, Hd. simpl.
  eexists. split; first done. unfold EditTagDialog.UpdateCoverOf_row. simpl.
  split; [|split].
  - intros Hne [Hartist Halbum].
    by rewrite !bool_decide_eq_true_2 by done.
  - intros Hother.
    destruct (bool_decide (i ≠ first)); simpl; last done.
    case_bool_decide as Hartist; simpl; last done.
    case_bool_decide as Halbum; simpl; last done.
    exfalso. by apply Hother.
  - done.
Qed.

(** C9. When the original record of the first selected entry is invalid or
    carries no collection id, [SetCoverArt] returns with the dialog as it
    was: no record of any entry is written and no cover is requested. *)
Theorem SetCoverArt_guarded sel cover_url s first e :
  head sel = Some first → data_ s !! first = Some e →
  is_valid (original_ e) = false ∨ id (original_ e) = (-1)%Z →
  SetCoverArt sel cover_url s = Some s.
Proof using Type.
  intros Hfirst He Hguard.
  unfold EditTagDialog.SetCoverArt, EditTagDialog.UpdateCoverOf.
  rewrite Hfirst. simpl. rewrite He. simpl.
  destruct Hguard as [-> | ->]; first done.
  by rewrite orb_true_r.
Qed.

End Cover.

Lemma SetCoverArt_propagates_within_album_witness :
  ∃ s', SetCoverArt Sample.albumartist_or_artist [0; 1; 2] "http://img/x.jpg"
          (loaded Sample.batch) = Some s' ∧
    data_ s' =
    [mkData Sample.song1 Sample.song1;
     mkData (set_art_manual "http://img/x.jpg" Sample.song2)
            (set_art_manual "http://img/x.jpg" Sample.song2);
     mkData Sample.song3 Sample.song3].
Proof.
  destruct (SetCoverArt_propagates_within_album Sample.albumartist_or_artist
              [0; 1; 2] "http://img/x.jpg" (loaded Sample.batch) 0
              (mkData Sample.song1 Sample.song1) eq_refl eq_refl eq_refl
              ltac:(done)) as (s' & Hrun & _).
  exists s'. split; first exact Hrun.
  vm_compute in Hrun. by injection Hrun as <-.
Defined.

Lemma SetCoverArt_guarded_witness :
  SetCoverArt Sample.albumartist_or_artist [0] "http://img/x.jpg"
    (loaded Sample.with_stray) = Some (loaded Sample.with_stray).
Proof.
  apply (SetCoverArt_guarded Sample.albumartist_or_artist [0]
           "http://img/x.jpg" (loaded Sample.with_stray) 0
           (mkData Sample.stray Sample.stray) eq_refl eq_refl).
  by right.
Defined.

(** C2 as stated fails: the first selected entry is a file with no
    collection id, the second entry is of the same album, and its original
    keeps its empty manual art. *)
Lemma SetCoverArt_without_id_counterexample :
  ∃ s', SetCoverArt Sample.albumartist_or_artist [0] "http://img/x.jpg"
          (loaded Sample.with_stray) = Some s' ∧
    ¬ cover_propagated Sample.albumartist_or_artist [0] "http://img/x.jpg"
        (loaded Sample.with_stray) s'.
Proof.
  eexists. split; first by vm_compute.
  intros (first & e & Hfirst & He & _ & Hrows).
  injection Hfirst as <-. injection He as <-.
  destruct (Hrows 1 (mkData Sample.song1 Sample.song1) eq_refl)
    as (d' & Hd' & Hsame & _).
  injection Hd' as <-. by discriminate Hsame.
Qed.

End EditTagDialogFacts.

(** * Properties of the Tidal cover provider *)

Module TidalCoverProviderFacts.
Import TidalCoverProvider.

Section Provider.

Context {qt : Externals}.

Lemma same_searches_refl p : same_searches p p.
Proof. by repeat split. Qed.

Lemma same_searches_trans p q r :
  same_searches p q → same_searches q r → same_searches p r.
Proof. unfold same_searches. intros (-> & -> & -> & ->). done. Qed.

Lemma same_searches_Error message p : same_searches p (Error message p).
Proof.
  unfold same_searches, Error, raise, searches. simpl.
  by rewrite omap_app, app_nil_r.
Qed.

Lemma same_searches_with_service f p : same_searches p (with_service f p).
Proof. by repeat split. Qed.

Lemma same_searches_GetReplyData content p :
  same_searches p (GetReplyData content p).1.
Proof.
  unfold GetReplyData. repeat case_match; simpl;
    eauto using same_searches_refl, same_searches_Error,
      same_searches_with_service, same_searches_trans.
Qed.

Lemma same_searches_log messages p :
  same_searches p (foldl (λ q message, Error message q) p messages).
Proof.
  revert p. induction messages as [|message messages IH]; intros p; simpl.
  - apply same_searches_refl.
  - eapply same_searches_trans; last apply IH. apply same_searches_Error.
Qed.

Lemma same_searches_collect_items array_items i results p :
  same_searches p (collect_items array_items i results p).1.
Proof.
  revert i results p.
  induction array_items as [|value_item array_items IH]; intros i results p;
    simpl.
  - apply same_searches_refl.
  - destruct (item_results value_item i) as [messages | found].
    + eapply same_searches_trans; last apply IH. apply same_searches_log.
    + apply IH.
Qed.

Lemma searches_raise id results p q :
  same_searches p q →
  searches (signals (raise (SearchFinished id results) q))
  = searches (signals p) ++ [(id, results)] ∧
  replies_ (raise (SearchFinished id results) q) = replies_ p.
Proof.
  intros (Hrep & _ & _ & Hsig). unfold raise, searches in *. simpl.
  by rewrite omap_app, Hsig.
Qed.

(** A reply in flight that finishes delivers one result for the id of its
    closure, on every path through [HandleSearchReply], and leaves the
    replies in flight. *)
Lemma HandleSearchReply_delivers reply content id p :
  reply ∈ replies_ p →
  ∃ results,
    searches (signals (HandleSearchReply reply content id p))
    = searches (signals p) ++ [(id, results)] ∧
    replies_ (HandleSearchReply reply content id p)
    = filter (λ r, r ≠ reply) (replies_ p).
Proof.
  intros Hin. unfold HandleSearchReply.
  rewrite bool_decide_eq_true_2 by done. simpl.
  set (p0 := mkProvider _ _ _ _ _).
  pose proof (same_searches_GetReplyData content p0) as Hdata.
  destruct (GetReplyData content p0) as [p1 data]. simpl in Hdata.
  assert (searches (signals p0) = searches (signals p)) as <- by done.
  change (filter (λ r, r ≠ reply) (replies_ p)) with (replies_ p0).
  repeat case_match; eexists;
    try (apply searches_raise; by eauto using same_searches_trans,
                                   same_searches_Error).
  apply searches_raise. eapply same_searches_trans; first done.
  match goal with
  | Hc : collect_items ?a ?i ?r ?q = _ |- _ =>
      pose proof (same_searches_collect_items a i r q) as Hitems;
      by rewrite Hc in Hitems
  end.
Qed.

(** C8, as the code has it.  [CancelSearch] leaves the provider as it is,
    so a search in flight stays in flight: when its reply finishes,
    [HandleSearchReply] delivers one result under its id and takes the
    reply out of the replies in flight. *)
Theorem CancelSearch_is_no_op id p reply content :
  reply ∈ replies_ p →
  CancelSearch id p = p ∧
  ∃ results,
    searches (signals (HandleSearchReply reply content id (CancelSearch id p)))
    = searches (signals p) ++ [(id, results)] ∧
    reply ∉ replies_ (HandleSearchReply reply content id (CancelSearch id p)).
Proof.
  intros Hin. split; first done. unfold CancelSearch.
  destruct (HandleSearchReply_delivers reply content id p Hin)
    as (results & Hsig & Hrep).
  exists results. split; first done. rewrite Hrep.
  intros Hstill. apply list_elem_of_filter in Hstill as [Hne _]. done.
Qed.

(** C10. [StartSearch] returns false and leaves the provider as it is, no
    request sent, when there is no service, when the service is not
    authenticated, or when artist, album and title are all empty.
    Otherwise it returns true and sends one request, for the track search
    when the album is empty and the title is not, for the album search in
    every other case; the reply joins the replies in flight, with a closure
    for the id. *)
Theorem StartSearch_spec artist album title id p :
  let refused :=
    match service_ p with
    | None => true
    | Some service => negb (authenticated service)
    end
    || (isEmpty artist && isEmpty album && isEmpty title) in
  let r := StartSearch artist album title id p in
  if refused then r = (p, false)
  else
    r.2 = true ∧
    service_ r.1 = service_ p ∧ signals r.1 = signals p ∧
    replies_ r.1 = replies_ p ++ [length (sent p)] ∧
    connected_ r.1 = connected_ p ++ [(length (sent p), id)] ∧
    ∃ req,
      sent r.1 = sent p ++ [req] ∧
      request_url req =
        kApiUrl +:+ "/" +:+
        (if isEmpty album && negb (isEmpty title) then "search/tracks"
         else "search/albums").
Proof.
  unfold StartSearch. destruct (service_ p) as [service|] eqn:Hservice; simpl;
    last done.
  destruct (authenticated service); simpl; last done.
  destruct (isEmpty artist && isEmpty album && isEmpty title) eqn:Hempty;
    simpl; first done.
  unfold search_query.
  destruct (isEmpty album && negb (isEmpty title)); simpl;
    repeat (split; first done); by eexists.
Qed.

End Provider.

Lemma CancelSearch_is_no_op_witness :
  ∃ results,
    searches (signals (HandleSearchReply (qt := TidalSample.externals) 0
                         TidalSample.refused 7
                         (CancelSearch 7 TidalSample.searching)))
    = [(7%Z, results)].
Proof.
  destruct (CancelSearch_is_no_op (qt := TidalSample.externals) 7
              TidalSample.searching 0 TidalSample.refused)
    as (_ & results & Hsig & _).
  - vm_compute. by left.
  - by exists results.
Defined.

(** C8 as stated fails: the search in flight under id 7 is cancelled, its
    reply finishes, and a result for id 7 is delivered. *)
Lemma CancelSearch_counterexample :
  ¬ delivered 7 TidalSample.searching ∧
  ¬ cancel_silences (qt := TidalSample.externals) 7 TidalSample.searching.
Proof.
  split.
  - intros (results & Hin). vm_compute in Hin. by apply elem_of_nil in Hin.
  - intros Hsilent. apply (Hsilent 0 TidalSample.refused).
    exists []. vm_compute. by left.
Qed.

End TidalCoverProviderFacts.

(** * Further properties of the tag editor *)

Module EditTagDialogMore.
Import EditTagDialog EditTagDialogFacts.

(** Truncating remainder below twice the divisor. *)
Lemma rem_below_twice (a b : Z) :
  (0 ≤ a < 2 * b)%Z →
  Z.rem a b = if (a <? b)%Z then a else (a - b)%Z.
Proof.
  intros Ha. rewrite Z.rem_mod_nonneg by lia.
  destruct (Z.ltb_spec a b).
  - apply Z.mod_small. lia.
  - symmetry. apply (Z.mod_unique_pos a b 1); lia.
Qed.

(** X1. With a row current in a non-empty list, [NextSong] and
    [PreviousSong] make a row of the list current, each undoes the other,
    and they wrap around at the ends; with no row current [NextSong] goes
    to the first row. *)
Theorem NextSong_PreviousSong_cycle (count currentRow : Z) :
  (0 ≤ currentRow < count)%Z →
  (0 ≤ NextSong count currentRow < count)%Z ∧
  (0 ≤ PreviousSong count currentRow < count)%Z ∧
  PreviousSong count (NextSong count currentRow) = currentRow ∧
  NextSong count (PreviousSong count currentRow) = currentRow ∧
  NextSong count (count - 1) = 0%Z ∧
  PreviousSong count 0 = (count - 1)%Z ∧
  NextSong count (-1) = 0%Z.
Proof.
  intros Hrow. unfold NextSong, PreviousSong.
  destruct (Z.eqb_spec count 0) as [? | _]; first lia.
  assert (∀ a, (0 ≤ a < 2 * count)%Z →
            Z.rem a count = if (a <? count)%Z then a else (a - count)%Z)
    as Hrem by (intros a Ha; by apply rem_below_twice).
  rewrite (Hrem (currentRow + 1)%Z), (Hrem (currentRow - 1 + count)%Z),
    (Hrem (count - 1 + 1)%Z), (Hrem (0 - 1 + count)%Z), (Hrem (-1 + 1)%Z)
    by lia.
  destruct (Z.ltb_spec (currentRow + 1) count),
    (Z.ltb_spec (currentRow - 1 + count) count);
    rewrite ?Hrem by lia;
    repeat match goal with
           | |- context [(?a <? ?b)%Z] => destruct (Z.ltb_spec a b)
           end; lia.
Qed.

Lemma NextSong_PreviousSong_cycle_witness :
  NextSong 3 2 = 0%Z ∧ PreviousSong 3 0 = 2%Z.
Proof.
  destruct (NextSong_PreviousSong_cycle 3 2 ltac:(lia))
    as (_ & _ & _ & _ & Hnext & Hprevious & _).
  done.
Defined.

Section MoreFields.

Variable toString : QVariant → QString.
Variable toInt : QVariant → Z.
Variable toBool : QVariant → bool.

Hypothesis toString_QString : ∀ s, toString (QVString s) = s.
Hypothesis toInt_int : ∀ n, toInt (QVInt n) = n.
Hypothesis toBool_bool : ∀ b, toBool (QVBool b) = b.

#[local] Abbreviation set_song_value := (set_song_value toString toInt toBool).
#[local] Abbreviation set_value := (set_value toString toInt toBool).
#[local] Abbreviation set_value_each := (set_value_each toString toInt toBool).
#[local] Abbreviation reset_each := (reset_each toString toInt toBool).
#[local] Abbreviation UpdateFieldValue := (UpdateFieldValue toString toInt toBool).
#[local] Abbreviation ResetFieldValue := (ResetFieldValue toString toInt toBool).
#[local] Abbreviation ResetField := (ResetField toString toInt toBool).

(** X2. The getter and the setter of [Data] dispatch on the same keys:
    [value] answers with a valid variant exactly for the fourteen keys of
    the namespace, a key it does not answer is not written by [set_value],
    and a variant fits a field only if [value] answers for its key. *)
Theorem value_and_set_value_share_keys (song : Song) (id : QString) :
  (isValid (value song id) = true ↔ id ∈ field_keys) ∧
  (isValid (value song id) = false →
   ∀ v d, set_value id v d = d) ∧
  (∀ v, value_fits id v = true → isValid (value song id) = true).
Proof using Type.
  assert (isValid (value song id) = true ↔ id ∈ field_keys) as Hknown.
  { split.
    - unfold value. by_key id; try done; intros _;
        apply (bool_decide_unpack _); vm_compute; exact I.
    - intros Hid. unfold field_keys, text_fields, number_fields, flag_fields
        in Hid. simpl in Hid.
      repeat (apply elem_of_cons in Hid as [-> | Hid]); try done.
      by apply elem_of_nil in Hid. }
  split; first done. split.
  - intros Hinvalid v d. apply set_value_unknown. rewrite <- Hknown.
    by rewrite Hinvalid.
  - intros v Hfit. apply Hknown. unfold field_keys. rewrite !elem_of_app.
    destruct v; simpl in Hfit; first done;
      apply bool_decide_eq_true in Hfit; tauto.
Qed.

Lemma set_song_value_idem id v cur :
  set_song_value id v (set_song_value id v cur) = set_song_value id v cur.
Proof using Type. unfold EditTagDialog.set_song_value. by by_key id. Qed.

(** Writing a field leaves the value of every other key. *)
Lemma value_set_song_value_other id id' v cur :
  id' ≠ id → value (set_song_value id v cur) id' = value cur id'.
Proof using Type.
  intros Hne. unfold EditTagDialog.set_song_value.
  by_key id; try done; unfold value; by_key id'; done.
Qed.

(** The loop of [UpdateFieldValue], row by row. *)
Lemma set_value_each_rows sel id v data :
  rows_in_range sel data →
  ∃ data', set_value_each sel id v data = Some data' ∧
    length data' = length data ∧
    ∀ row d, data !! row = Some d →
      data' !! row =
      Some (if decide (row ∈ sel) then set_value id v d else d).
Proof using Type.
  revert data. induction sel as [|row0 sel IH]; intros data Hsel.
  - exists data. split; first done. split; first done. intros row d Hd.
    by rewrite decide_False by apply not_elem_of_nil.
  - apply Forall_cons in Hsel as [Hrow Hrest].
    destruct (lookup_lt_is_Some_2 _ _ Hrow) as [d0 Hd0]. simpl.
    rewrite Hd0. simpl.
    destruct (IH (<[row0 := set_value id v d0]> data))
      as (data' & -> & Hlen & Hrows).
    { eapply rows_in_range_length; last done. by rewrite length_insert. }
    exists data'. split; first done.
    split; first by rewrite Hlen, length_insert.
    intros row d Hd. destruct (decide (row = row0)) as [-> | Hne].
    + assert (d = d0) as -> by congruence.
      rewrite (Hrows row0 (set_value id v d0))
        by (by apply list_lookup_insert_eq).
      rewrite (decide_True (P := row0 ∈ row0 :: sel)) by (by left).
      destruct (decide (row0 ∈ sel)); last done.
      unfold EditTagDialog.set_value. simpl. by rewrite set_song_value_idem.
    + rewrite (Hrows row d) by (by rewrite list_lookup_insert_ne).
      destruct (decide (row ∈ sel)) as [Hin | Hnin].
      * by rewrite decide_True by (by right).
      * rewrite decide_False; first done.
        intros Hin. apply elem_of_cons in Hin as [? | ?]; done.
Qed.

(** The loop of [ResetFieldValue], row by row. *)
Lemma reset_each_rows sel id data :
  rows_in_range sel data →
  ∃ data', reset_each sel id data = Some data' ∧
    length data' = length data ∧
    ∀ row d, data !! row = Some d →
      data' !! row =
      Some (if decide (row ∈ sel)
            then set_value id (original_value d id) d else d).
Proof using Type.
  revert data. induction sel as [|row0 sel IH]; intros data Hsel.
  - exists data. split; first done. split; first done. intros row d Hd.
    by rewrite decide_False by apply not_elem_of_nil.
  - apply Forall_cons in Hsel as [Hrow Hrest].
    destruct (lookup_lt_is_Some_2 _ _ Hrow) as [d0 Hd0]. simpl.
    rewrite Hd0. simpl.
    set (d1 := set_value id (original_value d0 id) d0).
    destruct (IH (<[row0 := d1]> data)) as (data' & -> & Hlen & Hrows).
    { eapply rows_in_range_length; last done. by rewrite length_insert. }
    exists data'. split; first done.
    split; first by rewrite Hlen, length_insert.
    intros row d Hd. destruct (decide (row = row0)) as [-> | Hne].
    + assert (d = d0) as -> by congruence.
      rewrite (Hrows row0 d1) by (by apply list_lookup_insert_eq).
      rewrite (decide_True (P := row0 ∈ row0 :: sel)) by (by left).
      destruct (decide (row0 ∈ sel)); last done.
      unfold d1, EditTagDialog.set_value, original_value. simpl.
      by rewrite set_song_value_idem.
    + rewrite (Hrows row d) by (by rewrite list_lookup_insert_ne).
      destruct (decide (row ∈ sel)) as [Hin | Hnin].
      * by rewrite decide_True by (by right).
      * rewrite decide_False; first done.
        intros Hin. apply elem_of_cons in Hin as [? | ?]; done.
Qed.

(** What [InitFieldValue] needs to return: a first row, and rows of
    [data_]. *)
Lemma InitFieldValue_total id row0 rest data :
  rows_in_range (row0 :: rest) data →
  is_Some (InitFieldValue id (row0 :: rest) data).
Proof using Type.
  intros Hsel. unfold InitFieldValue, UpdateModifiedField.
  destruct (IsValueModified_spec _ id _ Hsel) as (modified & -> & _).
  apply Forall_cons in Hsel as [Hrow Hrest].
  destruct (lookup_lt_is_Some_2 _ _ Hrow) as [d0 Hd0].
  destruct (DoesValueVary_loop_spec (current_value d0 id) rest id data Hrest)
    as (varies & Hloop & _).
  unfold DoesValueVary. rewrite Hd0. simpl. rewrite Hloop. simpl.
  destruct varies; simpl; rewrite ?Hd0; simpl; by eexists.
Qed.

(** X3. An edit over a selection makes the selection agree: after
    [SetFieldValue] of a value of the field's type over a non-empty
    selection, every selected song holds that value, [FieldValue] returns
    it with the flag false, and the label is bold exactly when the value
    differs from the original of some selected song. *)
Theorem UpdateFieldValue_selection_agrees id row0 rest v data :
  rows_in_range (row0 :: rest) data → value_fits id v = true →
  ∃ data' modified,
    UpdateFieldValue id (row0 :: rest) v data = Some (data', Some modified) ∧
    (∀ row, row ∈ row0 :: rest →
       ∃ d', data' !! row = Some d' ∧ current_value d' id = v) ∧
    FieldValue (row0 :: rest) id data' = Some (v, false) ∧
    (modified = true ↔
     ∃ row d, row ∈ row0 :: rest ∧ data !! row = Some d ∧
              original_value d id ≠ v).
Proof using toString_QString toInt_int toBool_bool.
  intros Hsel Hfit.
  destruct (set_value_each_rows _ id v _ Hsel) as (data' & Hrun & Hlen & Hrows).
  assert (rows_in_range (row0 :: rest) data') as Hsel'
    by (by eapply rows_in_range_length).
  assert (∀ row, row ∈ row0 :: rest →
            ∃ d d', data !! row = Some d ∧ data' !! row = Some d' ∧
                    original_ d' = original_ d ∧ current_value d' id = v)
    as Hset.
  { intros row Hin.
    destruct (rows_in_range_lookup row _ data Hsel Hin) as [d Hd].
    exists d, (set_value id v d). split; first done.
    split; first by rewrite (Hrows row d Hd), decide_True.
    split; first done. unfold current_value. simpl.
    by apply value_set_song_value. }
  destruct (IsValueModified_spec _ id _ Hsel') as (modified & Hmod & Hiff).
  exists data', modified. split.
  { unfold EditTagDialog.UpdateFieldValue, UpdateModifiedField.
    assert (isValid v = true) as -> by (by destruct v). cbn [negb].
    rewrite Hrun. simpl. simpl in Hmod. by rewrite Hmod. }
  split.
  { intros row Hin. destruct (Hset row Hin) as (d & d' & _ & Hd' & _ & Hv).
    by exists d'. }
  split.
  { destruct (Hset row0 ltac:(by left)) as (d & d0' & _ & Hd0' & _ & Hv0).
    pose proof Hsel' as Hsel''. apply Forall_cons in Hsel'' as [_ Hrest'].
    destruct (DoesValueVary_loop_spec (current_value d0' id) rest id data'
                Hrest') as (varies & Hloop & Hvaries).
    unfold FieldValue, DoesValueVary. simpl. rewrite Hd0'. simpl.
    rewrite Hloop. simpl. rewrite Hv0. do 2 f_equal.
    destruct varies; last done.
    destruct (proj1 Hvaries eq_refl) as (row & d' & Hin & Hd' & Hdiff).
    destruct (Hset row ltac:(by right)) as (dr & d'' & _ & Hd'' & _ & Hv).
    exfalso. apply Hdiff. congruence. }
  rewrite Hiff. split.
  - intros (row & d' & Hin & Hd' & Hdiff).
    destruct (Hset row Hin) as (d & d'' & Hd & Hd'' & Horig & Hv).
    exists row, d. split; first done. split; first done.
    assert (d'' = d') as -> by congruence.
    unfold original_value in *. rewrite <- Horig. congruence.
  - intros (row & d & Hin & Hd & Hdiff).
    destruct (Hset row Hin) as (d0 & d' & Hd0 & Hd' & Horig & Hv).
    exists row, d'. split; first done. split; first done.
    assert (d0 = d) as -> by congruence.
    unfold original_value in *. rewrite Horig. congruence.
Qed.

Lemma only_field_changed_refl id sel data : only_field_changed id sel data data.
Proof using Type.
  split; first done. split; first done.
  intros row d d' id' Hd Hd' _. by assert (d' = d) as -> by congruence.
Qed.

(** X4. An edit or a reset of one field over a selection changes nothing
    else: the rows outside the selection are as they were, and on the
    selected rows every other field reads as it did. *)
Theorem field_edits_touch_one_field id sel v data :
  rows_in_range sel data →
  (∃ data' modified,
     UpdateFieldValue id sel v data = Some (data', modified) ∧
     only_field_changed id sel data data') ∧
  (∃ data' display,
     ResetField id sel data = Some (data', display) ∧
     only_field_changed id sel data data').
Proof using Type.
  intros Hsel.
  assert (∀ data' (w : Data → QVariant),
            length data' = length data →
            (∀ row d, data !! row = Some d →
               data' !! row =
               Some (if decide (row ∈ sel) then set_value id (w d) d else d)) →
            only_field_changed id sel data data') as Hframe.
  { intros data' w Hlen Hrows. split; first done. split.
    - intros row Hnin. destruct (data !! row) as [d|] eqn:Hd.
      + by rewrite (Hrows row d Hd), decide_False.
      + apply lookup_ge_None. rewrite Hlen. by apply lookup_ge_None.
    - intros row d d' id' Hd Hd' Hne. rewrite (Hrows row d Hd) in Hd'.
      injection Hd' as <-. destruct (decide (row ∈ sel)); last done.
      unfold current_value. simpl.
      by rewrite value_set_song_value_other. }
  split.
  - unfold EditTagDialog.UpdateFieldValue. destruct (isValid v); simpl.
    + destruct (set_value_each_rows sel id v data Hsel)
        as (data' & -> & Hlen & Hrows). simpl.
      destruct (IsValueModified_spec sel id data') as (modified & Hmod & _).
      { by eapply rows_in_range_length. }
      unfold UpdateModifiedField. rewrite Hmod. simpl.
      eexists data', _. split; first done.
      by apply (Hframe data' (λ _, v)).
    + eexists data, _. split; first done. apply only_field_changed_refl.
  - unfold EditTagDialog.ResetField, EditTagDialog.ResetFieldValue.
    destruct sel as [|row0 rest].
    + eexists data, _. rewrite bool_decide_eq_true_2 by done.
      split; first done. apply only_field_changed_refl.
    + rewrite bool_decide_eq_false_2 by done.
      destruct (reset_each_rows (row0 :: rest) id data Hsel)
        as (data' & -> & Hlen & Hrows). simpl.
      destruct (InitFieldValue_total id row0 rest data') as [display ->].
      { by eapply rows_in_range_length. }
      simpl. eexists data', _. split; first done.
      by apply (Hframe data' (λ d, original_value d id)).
Qed.

End MoreFields.

Lemma UpdateFieldValue_selection_agrees_witness :
  ∃ data' modified,
    UpdateFieldValue Sample.held_string Sample.held_int Sample.held_bool
      "genre" [0; 2] (QVString "Pop") Sample.batch
    = Some (data', Some modified) ∧
    FieldValue [0; 2] "genre" data' = Some (QVString "Pop", false).
Proof.
  destruct (UpdateFieldValue_selection_agrees
              Sample.held_string Sample.held_int Sample.held_bool
              (λ _, eq_refl) (λ _, eq_refl) (λ _, eq_refl)
              "genre" 0 [2] (QVString "Pop") Sample.batch)
    as (data' & modified & Hrun & _ & Hvalue & _).
  - repeat (constructor; [simpl; lia|]); constructor.
  - reflexivity.
  - by exists data', modified.
Defined.

Lemma field_edits_touch_one_field_witness :
  ∃ data' modified,
    UpdateFieldValue Sample.held_string Sample.held_int Sample.held_bool
      "genre" [0; 1] (QVString "Jazz") Sample.batch = Some (data', modified) ∧
    data' !! 2 = Sample.batch !! 2.
Proof.
  destruct (field_edits_touch_one_field
              Sample.held_string Sample.held_int Sample.held_bool
              "genre" [0; 1] (QVString "Jazz") Sample.batch)
    as ((data' & modified & Hrun & _ & Hout & _) & _).
  - repeat (constructor; [simpl; lia|]); constructor.
  - exists data', modified. split; first done. apply Hout.
    intros Hin. repeat (apply elem_of_cons in Hin as [? | Hin]); try done.
    by apply elem_of_nil in Hin.
Defined.

(** The two queries read a batch through [value] only. *)
Lemma IsValueModified_ext sel id (data data' : list Data) :
  (∀ row, (λ d, (original_value d id, current_value d id)) <$> data' !! row
          = (λ d, (original_value d id, current_value d id)) <$> data !! row) →
  IsValueModified sel id data' = IsValueModified sel id data.
Proof.
  intros Hsame. induction sel as [|row sel IH]; first done. simpl.
  specialize (Hsame row).
  destruct (data' !! row) as [d'|], (data !! row) as [d|]; simpl in *;
    try done.
  injection Hsame as -> ->. by rewrite IH.
Qed.

Lemma DoesValueVary_ext sel id (data data' : list Data) :
  (∀ row, (λ d, current_value d id) <$> data' !! row
          = (λ d, current_value d id) <$> data !! row) →
  DoesValueVary sel id data' = DoesValueVary sel id data.
Proof.
  intros Hsame. destruct sel as [|row0 rest]; first done. simpl.
  pose proof (Hsame row0) as Hrow0.
  destruct (data' !! row0) as [d0'|], (data !! row0) as [d0|]; simpl in *;
    try done.
  injection Hrow0 as ->. generalize (current_value d0 id). intros v.
  induction rest as [|row rest IH]; first done. simpl.
  specialize (Hsame row).
  destruct (data' !! row) as [d'|], (data !! row) as [d|]; simpl in *;
    try done.
  injection Hsame as ->. by rewrite IH.
Qed.

Lemma value_set_art_manual cover_url song id :
  value (set_art_manual cover_url song) id = value song id.
Proof. unfold value. by by_key id. Qed.

Section MoreCover.

Variable effective_albumartist : Song → QString.

#[local] Abbreviation UpdateCoverOf_row := (UpdateCoverOf_row effective_albumartist).
#[local] Abbreviation SetCoverArt := (SetCoverArt effective_albumartist).

Lemma UpdateCoverOf_row_values selected first cover_url i d id :
  original_value (UpdateCoverOf_row selected first cover_url i d) id
  = original_value d id ∧
  current_value (UpdateCoverOf_row selected first cover_url i d) id
  = current_value d id.
Proof using Type.
  unfold EditTagDialog.UpdateCoverOf_row, original_value, current_value.
  simpl. rewrite value_set_art_manual. split; last done.
  by destruct (_ && _); rewrite ?value_set_art_manual.
Qed.

(** X5. Cover art is no field edit: whatever [SetCoverArt] does, it sends no
    write to the tag reader, leaves the counter and the loading flag, and
    every field of every entry reads as before from both records, so that
    [IsModified] and the varies flag are the same for every selection and
    key. *)
Theorem SetCoverArt_is_no_field_edit sel cover_url s first :
  head sel = Some first → first < length (data_ s) →
  ∃ s', SetCoverArt sel cover_url s = Some s' ∧
    saves (trace s') = saves (trace s) ∧
    pending_ s' = pending_ s ∧ loading_ s' = loading_ s ∧
    ∀ sel' id,
      IsValueModified sel' id (data_ s') = IsValueModified sel' id (data_ s) ∧
      DoesValueVary sel' id (data_ s') = DoesValueVary sel' id (data_ s).
Proof using Type.
  intros Hfirst Hrow. destruct sel as [|first' rest]; first done.
  injection Hfirst as ->.
  destruct (lookup_lt_is_Some_2 _ _ Hrow) as [e He].
  unfold EditTagDialog.SetCoverArt, EditTagDialog.UpdateCoverOf. simpl.
  rewrite He. simpl.
  destruct (negb (is_valid (original_ e)) || (id (original_ e) =? -1)%Z).
  { exists s. by repeat split. }
  rewrite UpdateCoverOf_loop_all. simpl. eexists. split; first done. simpl.
  split.
  { unfold saves. by rewrite omap_app, app_nil_r. }
  split; first done. split; first done.
  intros sel' id'. split.
  - apply IsValueModified_ext. intros row. rewrite list_lookup_imap.
    destruct (data_ s !! row) as [d|]; simpl; last done.
    by destruct (UpdateCoverOf_row_values (original_ e) first cover_url row d
                   id') as [-> ->].
  - apply DoesValueVary_ext. intros row. rewrite list_lookup_imap.
    destruct (data_ s !! row) as [d|]; simpl; last done.
    by destruct (UpdateCoverOf_row_values (original_ e) first cover_url row d
                   id') as [_ ->].
Qed.

End MoreCover.

Lemma SetCoverArt_is_no_field_edit_witness :
  ∃ s', SetCoverArt Sample.albumartist_or_artist [0; 1] "http://img/x.jpg"
          (loaded Sample.edited) = Some s' ∧
    IsValueModified [0; 1; 2] "genre" (data_ s') = Some true.
Proof.
  destruct (SetCoverArt_is_no_field_edit Sample.albumartist_or_artist [0; 1]
              "http://img/x.jpg" (loaded Sample.edited) 0 eq_refl)
    as (s' & Hrun & _ & _ & _ & Hsame).
  - simpl. lia.
  - exists s'. split; first done.
    by rewrite (proj1 (Hsame [0; 1; 2] "genre")).
Defined.

Section MoreFetchTag.

Variable toLocalFile : QUrl → QString.

#[local] Abbreviation FetchTagSongChosen := (FetchTagSongChosen toLocalFile).

Lemma UpdateUI_total fields_ row0 rest data :
  rows_in_range (row0 :: rest) data →
  is_Some (UpdateUI fields_ (row0 :: rest) data).
Proof using Type.
  intros Hsel. unfold UpdateUI. apply mapM_is_Some. apply Forall_forall.
  intros id _. by apply InitFieldValue_total.
Qed.

(** X6. A song chosen from the fetched tags is written into the first entry
    whose original has the file name of the song that was looked up, and
    into its working copy only: title, artist, album, track and year take
    the fetched values, every other field and every other entry stay, no
    original is written, and for a key outside these five [IsModified] is
    as before.  With no such entry nothing changes. *)
Theorem FetchTagSongChosen_writes_fetched_fields fields_ currentRow sel
    original_song new_metadata data :
  sel ≠ [] → rows_in_range sel data →
  ∃ data' ui,
    FetchTagSongChosen fields_ currentRow sel original_song new_metadata data
    = Some (data', ui) ∧
    original_ <$> data' = original_ <$> data ∧
    (∀ id sel', id ∉ fetched_fields →
       IsValueModified sel' id data' = IsValueModified sel' id data) ∧
    match list_find (λ d, toLocalFile (url (original_ d))
                          = toLocalFile (url original_song)) data with
    | None => data' = data ∧ ui = None
    | Some (i, d) =>
        (∀ j, j ≠ i → data' !! j = data !! j) ∧
        ∃ d', data' !! i = Some d' ∧
          ∀ id, current_value d' id =
                if bool_decide (id ∈ fetched_fields)
                then value new_metadata id else current_value d id
    end.
Proof using Type.
  intros Hne Hsel. destruct sel as [|row0 rest]; first done.
  unfold EditTagDialog.FetchTagSongChosen.
  destruct (list_find _ data) as [[i d]|] eqn:Hfind.
  2: { exists data, None. by repeat split. }
  apply list_find_Some in Hfind as (Hi & _ & _).
  set (cur := set_year _ _). set (data' := <[i := mkData (original_ d) cur]> data).
  assert (∀ id, value cur id =
                if bool_decide (id ∈ fetched_fields)
                then value new_metadata id else value (current_ d) id)
    as Hcur.
  { intros id. unfold cur, value, fetched_fields. by_key id; try done.
    rewrite bool_decide_eq_false_2; first done.
    intros Hin. repeat (apply elem_of_cons in Hin as [? | Hin]); try done.
    by apply elem_of_nil in Hin. }
  assert (length data' = length data) as Hlen by apply length_insert.
  assert (data' !! i = Some (mkData (original_ d) cur)) as Hi'.
  { apply list_lookup_insert_eq. by apply lookup_lt_Some in Hi. }
  assert (∃ ui,
            (if bool_decide (currentRow = Z.of_nat i)
             then ui0 ← UpdateUI fields_ (row0 :: rest) data';
                  Some (data', Some ui0)
             else Some (data', None)) = Some (data', ui)) as [ui ->].
  { case_bool_decide; last by eexists.
    destruct (UpdateUI_total fields_ row0 rest data') as [ui0 ->];
      last by eexists.
    by eapply rows_in_range_length. }
  exists data', ui. split; first done. split.
  { unfold data'. rewrite list_fmap_insert. simpl. apply list_insert_id.
    by rewrite list_lookup_fmap, Hi. }
  split.
  { intros id sel' Hid. apply IsValueModified_ext. intros row.
    destruct (decide (row = i)) as [-> | Hrow].
    - rewrite Hi', Hi. simpl. unfold original_value, current_value. simpl.
      by rewrite Hcur, bool_decide_eq_false_2.
    - unfold data'. by rewrite list_lookup_insert_ne. }
  split.
  { intros j Hj. unfold data'. by rewrite list_lookup_insert_ne. }
  eexists. split; first done. intros id. unfold current_value. simpl.
  apply Hcur.
Qed.

End MoreFetchTag.

Lemma FetchTagSongChosen_writes_fetched_fields_witness :
  ∃ data' ui,
    FetchTagSongChosen Sample.local_path field_keys 0 [0]
      Sample.song2 (set_title "Deux" Sample.song2) Sample.batch
    = Some (data', ui) ∧
    original_ <$> data' = original_ <$> Sample.batch.
Proof.
  destruct (FetchTagSongChosen_writes_fetched_fields Sample.local_path
              field_keys 0 [0] Sample.song2 (set_title "Deux" Sample.song2)
              Sample.batch)
    as (data' & ui & Hrun & Horig & _).
  - done.
  - repeat (constructor; [simpl; lia|]); constructor.
  - by exists data', ui.
Defined.

Section MoreLoading.

Variable IsEditable : Song → bool.
Variable ReadFileBlocking : QString → Song → Song.
Variable MergeUserSetData : Song → Song → Song.
Variable IsMetadataEqual : Song → Song → bool.
Variable is_collection_song : Song → bool.
Variable toLocalFile : QUrl → QString.

#[local] Abbreviation LoadData :=
  (LoadData IsEditable ReadFileBlocking MergeUserSetData toLocalFile).
#[local] Abbreviation SetSongs :=
  (SetSongs IsEditable ReadFileBlocking MergeUserSetData toLocalFile).
#[local] Abbreviation load :=
  (load IsEditable ReadFileBlocking MergeUserSetData toLocalFile).
#[local] Abbreviation accept := (accept IsMetadataEqual toLocalFile).
#[local] Abbreviation written := (written IsMetadataEqual toLocalFile).
#[local] Abbreviation deliver := (deliver is_collection_song).

Lemma LoadData_fresh songs :
  Forall (λ d, current_ d = original_ d) (LoadData songs).
Proof using Type.
  induction songs as [|song songs IH]; simpl; first done.
  repeat case_match; try done. by constructor.
Qed.

(** X7. [LoadData] keeps the songs that are editable and read back valid, in
    their order, each as an entry whose working copy is its original: on a
    batch just loaded no selection shows any field as modified. *)
Theorem LoadData_entries_unmodified songs :
  original_ <$> LoadData songs =
    (λ song, MergeUserSetData
               (ReadFileBlocking (toLocalFile (url song)) song) song) <$>
    filter (λ song, IsEditable song = true ∧
                    is_valid (ReadFileBlocking (toLocalFile (url song)) song)
                    = true) songs ∧
  length (LoadData songs) ≤ length songs ∧
  Forall (λ d, current_ d = original_ d) (LoadData songs) ∧
  ∀ sel id, rows_in_range sel (LoadData songs) →
    IsValueModified sel id (LoadData songs) = Some false.
Proof using Type.
  split; [|split; [|split]].
  - induction songs as [|song songs IH]; first done.
    cbn [EditTagDialog.LoadData]. rewrite filter_cons.
    destruct (IsEditable song).
    + destruct (is_valid (ReadFileBlocking (toLocalFile (url song)) song)).
      * rewrite decide_True by done. rewrite !fmap_cons. by rewrite IH.
      * by rewrite decide_False by (by intros [_ ?]).
    + by rewrite decide_False by (by intros [? _]).
  - induction songs as [|song songs IH]; simpl; first done.
    repeat case_match; simpl; lia.
  - apply LoadData_fresh.
  - intros sel id Hsel.
    destruct (IsValueModified_spec sel id _ Hsel) as ([|] & Hrun & Hiff);
      last done.
    destruct (proj1 Hiff eq_refl) as (row & d & _ & Hd & Hdiff).
    exfalso. apply Hdiff. unfold original_value, current_value.
    pose proof (LoadData_fresh songs) as Hfresh.
    rewrite Forall_forall in Hfresh.
    rewrite (Hfresh d); first done. by eapply list_elem_of_lookup_2.
Qed.

(** On a batch just loaded there is nothing to write, when a song is
    metadata-equal to itself. *)
Lemma written_LoadData songs :
  (∀ song, IsMetadataEqual song song = true) → written (LoadData songs) = [].
Proof using Type.
  intros Hrefl. unfold EditTagDialog.written.
  pose proof (LoadData_fresh songs) as Hfresh.
  induction Hfresh as [|d data Hd _ IH]; first done.
  rewrite filter_cons, decide_False; first done.
  by rewrite Hd, Hrefl.
Qed.


(** X9. A busy dialog refuses a second operation.  While a load is under way
    [accept] and a second [SetSongs] leave the dialog as it is; and as long
    as a write of a commit is not answered, [accept] leaves the dialog as
    it is (no write is issued twice) and [SetSongs] neither clears the batch
    nor starts a load. *)
Theorem busy_dialog_refuses_load_and_save songs songs' s :
  idle s →
  (accept (SetSongs songs s).1 = (SetSongs songs s).1 ∧
   SetSongs songs' (SetSongs songs s).1 = ((SetSongs songs s).1, None)) ∧
  ∀ cs s', deliver cs (accept s) = Some s' →
    length cs < length (written (data_ s)) →
    accept s' = s' ∧ SetSongs songs' s' = (s', None).
Proof using Type.
  intros Hidle. split.
  - destruct Hidle as (Hload & _ & _).
    destruct s as [data loading pending out tr]. simpl in *. by subst.
  - intros cs s' Hrun Hsome.
    destruct (commit_run _ _ _ s cs s' Hidle Hrun)
      as (arrived & Harr & Hperm & _ & _ & Hload & _).
    destruct (arrivals_outcomes _ _ _ Harr) as [Hlen _].
    apply Permutation_length in Hperm.
    rewrite length_app, length_fmap, Hlen in Hperm.
    rewrite bool_decide_eq_false_2 in Hload
      by (intros Hnil; rewrite Hnil in Hperm; simpl in Hperm; lia).
    simpl in Hload.
    unfold EditTagDialog.accept, EditTagDialog.SetSongs, SetLoading.
    simpl. by rewrite Hload.
Qed.

(** X10. Through a commit the counter is the number of writes not yet
    answered: it starts at the number of writes issued, goes down by one
    with every arrival, is never negative, and the dialog stays in the
    saving state exactly as long as it is positive.  The batch itself is not
    written by the commit. *)
Theorem pending_counts_unanswered_writes s cs s' :
  idle s → deliver cs (accept s) = Some s' →
  pending_ s' =
    (Z.of_nat (length (written (data_ s))) - Z.of_nat (length cs))%Z ∧
  (0 ≤ pending_ s')%Z ∧
  pending_ s' = Z.of_nat (length (outstanding s')) ∧
  (loading_ s' = true ↔ (0 < pending_ s')%Z) ∧
  data_ s' = data_ s.
Proof using Type.
  intros Hidle Hrun.
  destruct (commit_run _ _ _ s cs s' Hidle Hrun)
    as (arrived & Harr & Hperm & Hdata & Hpend & Hload & _).
  destruct (arrivals_outcomes _ _ _ Harr) as [Hlen _].
  apply Permutation_length in Hperm.
  rewrite length_app, length_fmap, Hlen in Hperm.
  split; first lia. split; first lia. split; first done.
  split; last done. rewrite Hload, Hpend.
  destruct (outstanding s'); simpl; split; (done || lia).
Qed.

(** X11. A commit does not bring the originals up to date: once all its
    writes are answered the dialog is idle with the batch as it was, and a
    further [accept] issues the same writes again. *)
Theorem second_accept_repeats_writes s cs s' :
  idle s → deliver cs (accept s) = Some s' →
  length cs = length (written (data_ s)) →
  idle s' ∧ data_ s' = data_ s ∧
  saves (trace (accept s')) = saves (trace s') ++ written (data_ s).
Proof using Type.
  intros Hidle Hrun Hall.
  destruct (commit_run _ _ _ s cs s' Hidle Hrun)
    as (arrived & Harr & Hperm & Hdata & Hpend & Hload & _).
  destruct (arrivals_outcomes _ _ _ Harr) as [Hlen _].
  apply Permutation_length in Hperm.
  rewrite length_app, length_fmap, Hlen in Hperm.
  assert (outstanding s' = []) as Hnil by (apply length_zero_iff_nil; lia).
  assert (idle s') as Hidle'.
  { unfold idle. by rewrite Hload, Hpend, Hnil. }
  split; first done. split; first done.
  rewrite (accept_idle _ _ s' Hidle'). simpl. rewrite Hdata.
  unfold saves. rewrite !omap_app. fold (saves (trace s')).
  fold (saves (save_events (written (data_ s)))).
  rewrite saves_save_events.
  assert (∀ b : bool, saves (if b then [DialogAccept] else []) = []) as Hclose
    by (by intros [|]).
  unfold saves in Hclose. by rewrite Hclose, app_nil_r.
Qed.

End MoreLoading.


Lemma busy_dialog_refuses_load_and_save_witness :
  accept Sample.same_tags Sample.local_path
    (accept Sample.same_tags Sample.local_path (loaded Sample.edited))
  = accept Sample.same_tags Sample.local_path (loaded Sample.edited).
Proof.
  destruct (busy_dialog_refuses_load_and_save
              Sample.editable Sample.reread Sample.merged Sample.same_tags
              Sample.in_collection Sample.local_path [] []
              (loaded Sample.edited)) as (_ & Hsaving).
  - by repeat split.
  - apply (Hsaving [] _ eq_refl). simpl. lia.
Defined.

Lemma pending_counts_unanswered_writes_witness :
  ∃ s', deliver Sample.in_collection [(1, false)]
          (accept Sample.same_tags Sample.local_path (loaded Sample.edited))
        = Some s' ∧ pending_ s' = 1%Z.
Proof.
  eexists. split; first by vm_compute.
  by destruct (pending_counts_unanswered_writes
                 Sample.same_tags Sample.in_collection Sample.local_path
                 (loaded Sample.edited) [(1, false)] _
                 ltac:(by repeat split) eq_refl) as (-> & _).
Defined.

Lemma second_accept_repeats_writes_witness :
  ∃ s', deliver Sample.in_collection [(0, true); (0, true)]
          (accept Sample.same_tags Sample.local_path (loaded Sample.edited))
        = Some s' ∧
    idle s' ∧ data_ s' = Sample.edited.
Proof.
  destruct (deliver Sample.in_collection [(0, true); (0, true)]
              (accept Sample.same_tags Sample.local_path
                 (loaded Sample.edited))) as [s'|] eqn:Hrun;
    last by vm_compute in Hrun.
  exists s'. split; first done.
  destruct (second_accept_repeats_writes
              Sample.same_tags Sample.in_collection Sample.local_path
              (loaded Sample.edited) [(0, true); (0, true)] s'
              ltac:(by repeat split) Hrun eq_refl) as (Hidle & Hdata & _).
  done.
Defined.

End EditTagDialogMore.

(** * Further properties of the Tidal cover provider *)

Module TidalCoverProviderMore.
Import TidalCoverProvider TidalCoverProviderFacts.

Lemma filter_none {A} (P : A → Prop) `{∀ x, Decision (P x)} (l : list A) :
  Forall (λ x, ¬ P x) l → filter P l = [].
Proof.
  induction 1 as [|x l Hx _ IH]; first done.
  by rewrite filter_cons, decide_False.
Qed.

Lemma filter_all {A} (P : A → Prop) `{∀ x, Decision (P x)} (l : list A) :
  Forall P l → filter P l = l.
Proof.
  induction 1 as [|x l Hx _ IH]; first done.
  by rewrite filter_cons, decide_True, IH.
Qed.

Lemma filter_closures (reply : nat) (connected : list (nat * Z)) :
  (filter (λ c, c.1 ≠ reply) connected).*1
  = filter (λ r, r ≠ reply) connected.*1.
Proof.
  induction connected as [|c connected IH]; first done.
  rewrite fmap_cons, !filter_cons. destruct (decide (c.1 ≠ reply)).
  - by rewrite fmap_cons, IH.
  - done.
Qed.

Lemma append_empty (a b : QString) : a +:+ b = "" → a = "" ∧ b = "".
Proof. by destruct a. Qed.

Section MoreProvider.

Context {qt : Externals}.

(** [StartSearch] when it goes ahead. *)
Lemma StartSearch_started artist album title id p p' :
  StartSearch artist album title id p = (p', true) →
  ∃ service req,
    service_ p = Some service ∧ authenticated service = true ∧
    (isEmpty artist && isEmpty album && isEmpty title) = false ∧
    request_query req =
      [(toPercentEncoding "query",
        toPercentEncoding (search_query artist album title).2);
       (toPercentEncoding "limit", toPercentEncoding (number kLimit));
       (toPercentEncoding "countryCode",
        toPercentEncoding (country_code service))] ∧
    p' = mkProvider (service_ p) (replies_ p ++ [length (sent p)])
           (connected_ p ++ [(length (sent p), id)]) (sent p ++ [req])
           (signals p).
Proof.
  unfold StartSearch. destruct (service_ p) as [service|] eqn:Hservice;
    last done.
  destruct (authenticated service) eqn:Hauth; simpl; last done.
  destruct (isEmpty artist && isEmpty album && isEmpty title) eqn:Hempty;
    first done.
  destruct (search_query artist album title) as [resource query] eqn:Hquery.
  intros [= <-]. eexists service, _.
  split; first done. split; first done. split; first done.
  split; last done. done.
Qed.

(** X12. Every request [StartSearch] sends carries a query that is not
    empty: the artist, when there is one, followed by the album, or by the
    title when there is no album; the title is not used when an album is
    given.  It comes with the limit and the country code of the service,
    in this order, each percent-encoded. *)
Theorem StartSearch_query_is_not_empty artist album title id p p' :
  StartSearch artist album title id p = (p', true) →
  ∃ service req query,
    service_ p = Some service ∧ sent p' = sent p ++ [req] ∧
    request_query req =
      [(toPercentEncoding "query", toPercentEncoding query);
       (toPercentEncoding "limit", toPercentEncoding (number 10));
       (toPercentEncoding "countryCode",
        toPercentEncoding (country_code service))] ∧
    query ≠ "" ∧
    query =
      (let second := if isEmpty album then title else album in
       if isEmpty artist then second
       else if isEmpty second then artist
       else (artist +:+ " ") +:+ second).
Proof.
  intros Hstart.
  destruct (StartSearch_started _ _ _ _ _ _ Hstart)
    as (service & req & Hservice & _ & Hempty & Hquery & ->).
  exists service, req, (search_query artist album title).2.
  split; first done. split; first done. split; first done.
  unfold search_query, isEmpty in *.
  destruct (decide (artist = "")) as [-> | Hartist],
    (decide (album = "")) as [-> | Halbum],
    (decide (title = "")) as [-> | Htitle];
    repeat (rewrite ?bool_decide_eq_true_2, ?bool_decide_eq_false_2 in Hempty
              by done);
    repeat (rewrite ?bool_decide_eq_true_2, ?bool_decide_eq_false_2 by done);
    simpl in *; try done; (split; last done);
    intros Hnone; apply append_empty in Hnone as [Hnone ?]; try done;
    by apply append_empty in Hnone as [? ?].
Qed.

(** The provider a reply in flight leaves behind when it finishes: the
    result is raised on a provider that differs from the one without the
    reply in its service and its log only. *)
Lemma HandleSearchReply_shape reply content id p :
  reply ∈ replies_ p →
  ∃ results q,
    HandleSearchReply reply content id p
    = raise (SearchFinished id results) q ∧
    same_searches
      (mkProvider (service_ p) (filter (λ r, r ≠ reply) (replies_ p))
         (filter (λ c, c.1 ≠ reply) (connected_ p)) (sent p) (signals p)) q.
Proof.
  intros Hin. unfold HandleSearchReply.
  rewrite bool_decide_eq_true_2 by done. simpl.
  set (p0 := mkProvider _ _ _ _ _).
  pose proof (same_searches_GetReplyData content p0) as Hdata.
  destruct (GetReplyData content p0) as [p1 data]. simpl in Hdata.
  repeat case_match; eexists _, _; (split; first done);
    eauto using same_searches_trans, same_searches_Error.
  eapply same_searches_trans; first done.
  match goal with
  | Hc : collect_items ?a ?i ?r ?q = _ |- _ =>
      pose proof (same_searches_collect_items a i r q) as Hitems;
      by rewrite Hc in Hitems
  end.
Qed.

Lemma consistent_HandleSearchReply reply content id p :
  consistent p → consistent (HandleSearchReply reply content id p).
Proof.
  intros Hp. destruct (decide (reply ∈ replies_ p)) as [Hin | Hnin].
  - destruct (HandleSearchReply_shape reply content id p Hin)
      as (results & q & -> & Hrep & Hconn & Hsent & _).
    destruct Hp as (Hnodup & Hclosures & Hrange). simpl in *.
    unfold consistent. simpl. rewrite Hrep, Hconn, Hsent.
    split; first by apply NoDup_filter.
    split; first by rewrite filter_closures, Hclosures.
    rewrite Forall_forall in *. intros r Hr.
    apply list_elem_of_filter in Hr as [_ Hr]. auto.
  - unfold HandleSearchReply. by rewrite bool_decide_eq_false_2.
Qed.

Lemma consistent_finished reply content p :
  consistent p → consistent (finished reply content p).
Proof.
  unfold finished. generalize (filter (λ c, c.1 = reply) (connected_ p)).
  intros closures. revert p.
  induction closures as [|c closures IH]; intros p Hp; first done.
  simpl. apply IH. by apply consistent_HandleSearchReply.
Qed.

(** X13. The bookkeeping of the replies in flight is kept by every
    operation: starting from a provider with none, after any calls of
    [StartSearch] and [CancelSearch] and any replies finishing, no reply
    is listed twice, each was handed out by the network, and the closures
    connected are exactly those of the replies in flight. *)
Theorem provider_bookkeeping_is_kept p :
  consistent (mkProvider (service_ p) [] [] [] []) ∧
  (consistent p →
   (∀ artist album title id,
      consistent (StartSearch artist album title id p).1) ∧
   (∀ id, consistent (CancelSearch id p)) ∧
   (∀ reply content id, consistent (HandleSearchReply reply content id p)) ∧
   (∀ reply content, consistent (finished reply content p))).
Proof.
  split.
  { split; first by apply NoDup_nil. split; first done. by apply Forall_nil. }
  intros Hp. split; [|split; [done|split]].
  - intros artist album title id.
    destruct (StartSearch artist album title id p) as [p' started] eqn:Hstart.
    destruct started.
    + destruct (StartSearch_started _ _ _ _ _ _ Hstart)
        as (_ & req & _ & _ & _ & _ & ->).
      destruct Hp as (Hnodup & Hclosures & Hrange). unfold consistent.
      simpl. rewrite Forall_forall in Hrange. split.
      { apply NoDup_app. split; first done. split; last by apply NoDup_singleton.
        intros r Hr Hnew. apply list_elem_of_singleton in Hnew as ->.
        specialize (Hrange _ Hr). simpl in Hrange. lia. }
      split; first by rewrite fmap_app, Hclosures.
      rewrite length_app. simpl. apply Forall_app. split.
      * apply Forall_forall. intros r Hr. specialize (Hrange _ Hr).
        simpl in Hrange. lia.
      * apply Forall_singleton. lia.
    + assert (p' = p) as ->; last done.
      unfold StartSearch in Hstart. repeat case_match; congruence.
  - intros reply content id. by apply consistent_HandleSearchReply.
  - intros reply content. by apply consistent_finished.
Qed.

(** X14. A search that was started is answered once: when the reply of a
    search started under [id] finishes, one result is delivered, under that
    id, the reply leaves the replies in flight, which are then those from
    before the search, and a later signal of the same reply delivers
    nothing. *)
Theorem started_search_is_answered_once artist album title id p p' content :
  consistent p → StartSearch artist album title id p = (p', true) →
  ∃ results,
    searches (signals (finished (length (sent p)) content p'))
    = searches (signals p) ++ [(id, results)] ∧
    replies_ (finished (length (sent p)) content p') = replies_ p ∧
    connected_ (finished (length (sent p)) content p') = connected_ p ∧
    ∀ content',
      finished (length (sent p)) content'
        (finished (length (sent p)) content p')
      = finished (length (sent p)) content p'.
Proof.
  intros (Hnodup & Hclosures & Hrange) Hstart.
  destruct (StartSearch_started _ _ _ _ _ _ Hstart)
    as (_ & req & _ & _ & _ & _ & ->).
  set (reply := length (sent p)).
  assert (Forall (λ r, r ≠ reply) (replies_ p)) as Hold.
  { eapply Forall_impl; first done. simpl. unfold reply. lia. }
  assert (Forall (λ c : nat * Z, c.1 ≠ reply) (connected_ p)) as Hold'.
  { apply Forall_forall. intros c Hc. rewrite Forall_forall in Hold.
    apply Hold. rewrite <- Hclosures. by apply list_elem_of_fmap_2. }
  set (p' := mkProvider _ _ _ _ _).
  assert (filter (λ c : nat * Z, c.1 = reply) (connected_ p) = []) as Hnone
    by (apply filter_none; eapply Forall_impl; first done; simpl; tauto).
  assert (finished reply content p' = HandleSearchReply reply content id p')
    as Hfin.
  { unfold finished, p'. simpl.
    by rewrite filter_app, Hnone, filter_cons, decide_True. }
  destruct (HandleSearchReply_shape reply content id p')
    as (results & q & Hrun & Hrep & Hconn & Hsent & Hsig).
  { simpl. apply elem_of_app. right. by left. }
  simpl in *. rewrite filter_app, filter_all, filter_cons, decide_False,
    app_nil_r in Hrep by (done || tauto).
  rewrite filter_app, filter_all, filter_cons, decide_False,
    app_nil_r in Hconn by (done || simpl; tauto).
  exists results. rewrite Hfin, Hrun. simpl.
  split.
  { unfold searches in *. by rewrite omap_app, Hsig. }
  split; first done. split; first done.
  intros content'. unfold finished. simpl. by rewrite Hconn, Hnone.
Qed.

Lemma GetReplyData_success content p :
  error content = 0%Z → http_status content = 200%Z →
  GetReplyData content p = (p, readAll content).
Proof. intros Herror Hstatus. unfold GetReplyData. by rewrite Herror, Hstatus. Qed.

(** A reply that is not a plain success: one line goes to the log and no
    data comes back; the service is logged out only on the answer Tidal
    gives for a session that is not valid. *)
Lemma GetReplyData_failure content p :
  ¬ (error content = 0 ∧ http_status content = 200)%Z →
  ∃ message q,
    GetReplyData content p = (Error message q, "") ∧
    (q = p ∨
     q = with_service Logout p ∧
     ¬ (error content ≠ 0 ∧ error content < 200)%Z ∧
     ∃ members,
       fromJson (readAll content) = Some (JObject members) ∧
       contains members "userMessage" = true ∧
       toInt (at_key members "status") = 401%Z ∧
       toInt (at_key members "subStatus") = 6001%Z).
Proof.
  intros Hfail. unfold GetReplyData.
  destruct (Z.eqb_spec (error content) 0) as [Herror | Herror];
    destruct (Z.eqb_spec (http_status content) 200) as [Hstatus | Hstatus];
    simpl; try (exfalso; tauto);
    try (destruct (Z.ltb_spec (error content) 200) as [Hlow | Hhigh]; simpl;
         first by (eexists _, _; split; [done | by left]));
    (destruct (fromJson (readAll content)) as [[| | | | |items|members]|]
       eqn:Hjson; simpl;
     try by (eexists _, _; split; [done | by left]));
    (destruct (negb (bool_decide (members = []))
               && contains members "status"
               && contains members "userMessage") eqn:Hfound; simpl;
     last by (eexists _, _; split; [done | by left]));
    (destruct (Z.eqb_spec (toInt (at_key members "status")) 401);
     destruct (Z.eqb_spec (toInt (at_key members "subStatus")) 6001); simpl;
     try by (eexists _, _; split; [done | by left]));
    (eexists _, _; split; [done | right]);
    (split; first done); (split; first lia);
    exists members; apply andb_true_iff in Hfound as [_ Hmessage]; done.
Qed.

Lemma GetReplyData_data content p :
  (GetReplyData content p).2 = "" ∨
  (GetReplyData content p).2 = readAll content.
Proof.
  destruct (decide (error content = 0 ∧ http_status content = 200)%Z)
    as [[Herror Hstatus] | Hfail].
  - right. by rewrite GetReplyData_success.
  - left. by destruct (GetReplyData_failure content p Hfail)
      as (message & q & -> & _).
Qed.

(** X15. A reply that failed gives an empty result, never a partial one:
    when a reply in flight finishes with a network error or with a status
    other than 200, one line is logged and [SearchFinished] is sent with no
    results. *)
Theorem failed_reply_gives_no_results reply content id p :
  reply ∈ replies_ p →
  (error content ≠ 0 ∨ http_status content ≠ 200)%Z →
  ∃ message,
    signals (HandleSearchReply reply content id p)
    = signals p ++ [LogError message; SearchFinished id []].
Proof.
  intros Hin Hfail. unfold HandleSearchReply.
  rewrite bool_decide_eq_true_2 by done. simpl.
  set (p0 := mkProvider _ _ _ _ _).
  destruct (GetReplyData_failure content p0) as (message & q & -> & Hq);
    first lia.
  exists message. simpl. rewrite <- app_assoc. simpl.
  by destruct Hq as [-> | [-> _]].
Qed.

Lemma service_Error message p : service_ (Error message p) = service_ p.
Proof. done. Qed.

Lemma service_collect_items array_items i results p :
  service_ (collect_items array_items i results p).1 = service_ p.
Proof.
  revert i results p.
  induction array_items as [|value_item array_items IH]; intros i results p;
    simpl; first done.
  destruct (item_results value_item i) as [messages | found]; last apply IH.
  rewrite IH. clear IH. revert p.
  induction messages as [|message messages IH]; intros p; first done.
  simpl. by rewrite IH.
Qed.


Lemma item_results_found value_item i found :
  item_results value_item i = inr found →
  result_number <$> found = [(i + 1)%Z; (i + 1)%Z; (i + 1)%Z] ∧
  image_size <$> found = cover_sizes.*2.
Proof.
  unfold item_results. repeat case_match; try done; by intros [= <-].
Qed.

Lemma item_results_skipped value_item i messages :
  item_results value_item i = inl messages → length messages = 1.
Proof.
  unfold item_results. repeat case_match; try done; by intros [= <-].
Qed.

Lemma logged_messages messages p :
  logged (signals (foldl (λ q message, Error message q) p messages))
  = logged (signals p) ++ messages.
Proof.
  revert p. induction messages as [|message messages IH]; intros p; simpl.
  - by rewrite app_nil_r.
  - rewrite IH. unfold Error, raise, logged. simpl.
    by rewrite omap_app, <- app_assoc.
Qed.

Lemma numbers_shift (i : Z) (a k : nat) :
  flat_map (λ n, [(i + 1 + Z.of_nat n)%Z; (i + 1 + Z.of_nat n)%Z;
                  (i + 1 + Z.of_nat n)%Z]) (seq a k)
  = flat_map (λ n, [(i + Z.of_nat n)%Z; (i + Z.of_nat n)%Z;
                    (i + Z.of_nat n)%Z]) (seq (S a) k).
Proof.
  revert a. induction k as [|k IH]; intros a; first done.
  cbn [seq flat_map]. rewrite IH.
  by replace (i + 1 + Z.of_nat a)%Z with (i + Z.of_nat (S a))%Z by lia.
Qed.

(** The loop over the items: the items that are taken are numbered from
    [i + 1] on without a gap, each gives one result for each cover size,
    largest first, and each item that is skipped gives one line of the
    log. *)
Lemma collect_items_numbers array_items i results p :
  ∃ k, k ≤ length array_items ∧
    result_number <$> (collect_items array_items i results p).2
    = (result_number <$> results)
      ++ flat_map (λ n, [(i + Z.of_nat n)%Z; (i + Z.of_nat n)%Z;
                         (i + Z.of_nat n)%Z]) (seq 1 k) ∧
    image_size <$> (collect_items array_items i results p).2
    = (image_size <$> results) ++ mjoin (replicate k cover_sizes.*2) ∧
    length (logged (signals (collect_items array_items i results p).1))
    = length (logged (signals p)) + (length array_items - k).
Proof.
  revert i results p.
  induction array_items as [|value_item array_items IH]; intros i results p.
  - exists 0. simpl. rewrite !app_nil_r. repeat split; lia.
  - simpl. destruct (item_results value_item i) as [messages | found] eqn:Hitem.
    + destruct (IH i results
                  (foldl (λ q message, Error message q) p messages))
        as (k & Hk & Hnumbers & Hsizes & Hlog).
      exists k. split; first lia. split; first done. split; first done.
      rewrite Hlog, logged_messages, length_app.
      rewrite (item_results_skipped _ _ _ Hitem). lia.
    + destruct (IH (i + 1)%Z (results ++ found) p)
        as (k & Hk & Hnumbers & Hsizes & Hlog).
      destruct (item_results_found _ _ _ Hitem) as [Hfound Hfound'].
      exists (S k). split; first lia. split; [|split].
      * rewrite Hnumbers, fmap_app, Hfound, numbers_shift, <- app_assoc.
        done.
      * rewrite Hsizes, fmap_app, Hfound', <- app_assoc. done.
      * rewrite Hlog. lia.
Qed.

(** X17. The results of a search come in threes: the items of the answer
    that are taken are numbered 1, 2, ... in their order, without a gap for
    an item that is skipped, and each gives three results with its number,
    for the sizes 1280, 750 and 640 in this order.  No more items are taken
    than the items array of the body holds. *)
Theorem results_are_numbered_by_item reply content id p :
  reply ∈ replies_ p →
  ∃ results k,
    searches (signals (HandleSearchReply reply content id p))
    = searches (signals p) ++ [(id, results)] ∧
    result_number <$> results = numbers_by_size k ∧
    image_size <$> results
    = mjoin (replicate k [(1280, 1280)%Z; (750, 750)%Z; (640, 640)%Z]) ∧
    k ≤ length (toArray (at_key (ExtractJsonObj (readAll content)) "items")).
Proof.
  intros Hin.
  assert (∃ results q,
            HandleSearchReply reply content id p
            = raise (SearchFinished id results) q ∧
            (results = [] ∨
             ∃ p1, (collect_items
                      (toArray (at_key (ExtractJsonObj (readAll content))
                                  "items")) 0 [] p1).2 = results))
    as (results & q & Hrun & Hresults).
  { unfold HandleSearchReply. rewrite bool_decide_eq_true_2 by done. simpl.
    set (p0 := mkProvider _ _ _ _ _).
    pose proof (GetReplyData_data content p0) as Hdata.
    destruct (GetReplyData content p0) as [p1 data]. simpl in Hdata.
    destruct Hdata as [-> | ->]; first by (eexists _, _; split; [done | left]).
    repeat case_match; eexists _, _; (split; first done);
      try (by left).
    right. eexists.
    match goal with Hc : collect_items _ _ _ _ = _ |- _ => by rewrite Hc end. }
  destruct (HandleSearchReply_delivers reply content id p Hin)
    as (results' & Hsig & _).
  rewrite Hrun in Hsig. unfold raise, searches in Hsig. simpl in Hsig.
  exists results.
  destruct Hresults as [-> | [p1 <-]].
  - exists 0. split; last (repeat split; simpl; (done || lia)).
    rewrite Hrun. unfold raise, searches. simpl. rewrite omap_app in *.
    simpl in *. apply app_inj_tail in Hsig as [-> _]. done.
  - destruct (collect_items_numbers
                (toArray (at_key (ExtractJsonObj (readAll content)) "items"))
                0 [] p1) as (k & Hk & Hnumbers & Hsizes & _).
    exists k. split; [|split; [|split]]; try done.
    rewrite Hrun. unfold raise, searches. simpl. rewrite omap_app in *.
    simpl in *. by apply app_inj_tail in Hsig as [-> _].
Qed.

Lemma abort_replies_aborted replies connected aborted :
  (abort_replies replies connected aborted).2 = aborted ++ replies.
Proof.
  revert connected aborted.
  induction replies as [|reply replies IH]; intros connected aborted; simpl.
  - by rewrite app_nil_r.
  - by rewrite IH, <- app_assoc.
Qed.

Lemma abort_replies_disconnects replies (connected : list (nat * Z)) aborted :
  Forall (λ c, c.1 ∈ replies) connected →
  (abort_replies replies connected aborted).1 = [].
Proof.
  revert connected aborted.
  induction replies as [|reply replies IH]; intros connected aborted Hall;
    simpl.
  - destruct connected as [|c connected]; first done.
    apply Forall_cons in Hall as [Hc _]. by apply elem_of_nil in Hc.
  - apply IH. apply Forall_forall. intros c Hc.
    apply list_elem_of_filter in Hc as [Hne Hc].
    rewrite Forall_forall in Hall. specialize (Hall c Hc).
    apply elem_of_cons in Hall as [? | ?]; done.
Qed.

(** X18. The destructor leaves nothing behind: every reply in flight is
    aborted, once and in the order of issue, after its closure was
    disconnected, so that no reply that finishes afterwards reaches
    [HandleSearchReply]; nothing is sent to the listeners. *)
Theorem Destructor_aborts_every_reply p :
  consistent p →
  (Destructor p).2 = replies_ p ∧
  replies_ (Destructor p).1 = [] ∧
  connected_ (Destructor p).1 = [] ∧
  signals (Destructor p).1 = signals p ∧
  ∀ reply content,
    finished reply content (Destructor p).1 = (Destructor p).1.
Proof.
  intros (_ & Hclosures & _). unfold Destructor.
  pose proof (abort_replies_aborted (replies_ p) (connected_ p) []) as Haborted.
  pose proof (abort_replies_disconnects (replies_ p) (connected_ p) [])
    as Hnone.
  destruct (abort_replies (replies_ p) (connected_ p) [])
    as [connected aborted]. simpl in *.
  rewrite Hnone.
  - by repeat split.
  - apply Forall_forall. intros c Hc. rewrite <- Hclosures.
    by apply list_elem_of_fmap_2.
Qed.

End MoreProvider.

Lemma StartSearch_query_is_not_empty_witness :
  ∃ req, sent TidalSample.searching = [req] ∧
    request_query req = [("query", "Y X"); ("limit", "10");
                         ("countryCode", "NO")].
Proof.
  destruct (StartSearch_query_is_not_empty (qt := TidalSample.externals)
              "Y" "X" "" 7 TidalSample.signed_in TidalSample.searching
              eq_refl)
    as (service & req & query & Hservice & Hsent & Hquery & _ & ->).
  injection Hservice as <-. exists req. split; first exact Hsent.
  exact Hquery.
Defined.

Lemma started_search_is_answered_once_witness :
  ∃ results,
    searches (signals (finished (qt := TidalSample.externals) 0
                         TidalSample.refused TidalSample.searching))
    = [(7%Z, results)].
Proof.
  destruct (started_search_is_answered_once (qt := TidalSample.externals)
              "Y" "X" "" 7 TidalSample.signed_in TidalSample.searching
              TidalSample.refused)
    as (results & Hsig & _).
  - split; first by apply NoDup_nil. split; first done. by apply Forall_nil.
  - reflexivity.
  - by exists results.
Defined.

Lemma failed_reply_gives_no_results_witness :
  ∃ message,
    signals (HandleSearchReply (qt := TidalSample.externals) 0
               TidalSample.refused 7 TidalSample.searching)
    = [LogError message; SearchFinished 7 []].
Proof.
  destruct (failed_reply_gives_no_results (qt := TidalSample.externals) 0
              TidalSample.refused 7 TidalSample.searching)
    as (message & Hsignals).
  - vm_compute. by left.
  - left. vm_compute. done.
  - by exists message.
Defined.

Lemma results_are_numbered_by_item_witness :
  ∃ results,
    searches (signals (HandleSearchReply (qt := TidalSample.reading) 0
                         TidalSample.answered 7 TidalSample.searching))
    = [(7%Z, results)] ∧
    result_number <$> results = [1; 1; 1; 2; 2; 2]%Z.
Proof.
  destruct (results_are_numbered_by_item (qt := TidalSample.reading) 0
              TidalSample.answered 7 TidalSample.searching)
    as (results & k & Hsig & Hnumbers & _).
  - vm_compute. by left.
  - exists results. split; first exact Hsig.
    vm_compute in Hsig. by injection Hsig as <-.
Defined.

Lemma Destructor_aborts_every_reply_witness :
  Destructor TidalSample.searching
  = (mkProvider (service_ TidalSample.searching) [] []
       (sent TidalSample.searching) [], [0]).
Proof.
  destruct (Destructor_aborts_every_reply (qt := TidalSample.externals)
              TidalSample.searching)
    as (Haborted & Hreplies & Hconnected & Hsignals & _).
  - split; first by apply (NoDup_singleton 0).
    split; first done. apply Forall_singleton. simpl. lia.
  - reflexivity.
Defined.

End TidalCoverProviderMore.
